(** * CloudAHK Node.js client: the output-analysis core

    A shallow embedding of [_parseResult], [_detectErrors], [_classifyError]
    and [_generateSummary] of the [CloudAHKClient] class, with the regular
    expressions and string primitives they rely on, of the constructor and
    [validate], and of the language choice of the MCP server, followed by
    the properties of the analysis. *)

From Stdlib Require Import String Ascii.
From Stdlib Require Import List NArith ZArith Arith Bool Lia Sorted.
Import ListNotations.

Set Implicit Arguments.

(** ** JavaScript strings

    A JavaScript string is a sequence of UTF-16 code units; [length],
    [substring], [startsWith], [split] and the (non-unicode) regular
    expressions of the client all work on code units. *)

Definition code_unit := N.
Definition js_string := list code_unit.

(** String literals of the source, written as Rocq strings (ASCII only). *)
Definition lit (s : string) : js_string :=
  map N_of_ascii (list_ascii_of_string s).
Arguments lit s%_string.

(** ['\n'] and ['\t']. *)
Definition NL : code_unit := 10%N.
Definition TAB : code_unit := 9%N.

Definition js_string_eqb (a b : js_string) : bool :=
  if list_eq_dec N.eq_dec a b then true else false.

(** [String.prototype.startsWith]. *)
Fixpoint startsWith (s prefix : js_string) {struct prefix} : bool :=
  match prefix, s with
  | [], _ => true
  | p :: prefix', c :: s' => N.eqb c p && startsWith s' prefix'
  | _ :: _, [] => false
  end.

(** WhiteSpace and LineTerminator code units of ECMAScript: the set removed
    by [String.prototype.trim] and matched by [\s]. *)
Definition is_space (c : code_unit) : bool :=
  ((9 <=? c) && (c <=? 13) ||
   (c =? 32) || (c =? 160) || (c =? 5760) ||
   (8192 <=? c) && (c <=? 8202) ||
   (c =? 8232) || (c =? 8233) || (c =? 8239) || (c =? 8287) ||
   (c =? 12288) || (c =? 65279))%N.

(** [\d]. *)
Definition is_digit (c : code_unit) : bool := ((48 <=? c) && (c <=? 57))%N.

Fixpoint trimStart (s : js_string) : js_string :=
  match s with
  | [] => []
  | c :: s' => if is_space c then trimStart s' else s
  end.

Definition trimEnd (s : js_string) : js_string := rev (trimStart (rev s)).

(** [String.prototype.trim]. *)
Definition trim (s : js_string) : js_string := trimEnd (trimStart s).

(** [s.split(sep)] for a one-code-unit separator: never empty, the empty
    string gives one empty piece. *)
Fixpoint split (sep : code_unit) (s : js_string) : list js_string :=
  match s with
  | [] => [[]]
  | c :: s' =>
      if N.eqb c sep then [] :: split sep s'
      else match split sep s' with
           | piece :: pieces => (c :: piece) :: pieces
           | [] => [[c]]
           end
  end.

(** [pieces.join(sep)]. *)
Fixpoint join (sep : js_string) (pieces : list js_string) : js_string :=
  match pieces with
  | [] => []
  | [p] => p
  | p :: rest => p ++ sep ++ join sep rest
  end.

(** Decimal rendering of a non-negative integer, as a template literal
    interpolates [errors.length]. *)
Fixpoint uint_digits (d : Decimal.uint) : js_string :=
  match d with
  | Decimal.Nil => []
  | Decimal.D0 d' => 48%N :: uint_digits d'
  | Decimal.D1 d' => 49%N :: uint_digits d'
  | Decimal.D2 d' => 50%N :: uint_digits d'
  | Decimal.D3 d' => 51%N :: uint_digits d'
  | Decimal.D4 d' => 52%N :: uint_digits d'
  | Decimal.D5 d' => 53%N :: uint_digits d'
  | Decimal.D6 d' => 54%N :: uint_digits d'
  | Decimal.D7 d' => 55%N :: uint_digits d'
  | Decimal.D8 d' => 56%N :: uint_digits d'
  | Decimal.D9 d' => 57%N :: uint_digits d'
  end.

Definition number_to_string (n : nat) : js_string :=
  uint_digits (Nat.to_uint n).

(** ** Regular expressions

    The fragment of ECMAScript regular expressions the client uses:
    literal characters, the classes [\s] and [\d], sequence, alternation,
    the quantifiers [*], [+] and [?], a leading [^], and the [i] flag.
    None of the expressions has the [g] or [y] flag, so [test] keeps no
    state between calls. *)

Inductive regex : Type :=
| Eps
| Char (c : code_unit)
| Class (p : code_unit -> bool)
| Seq (a b : regex)
| Alt (a b : regex)
| Star (a : regex).

Definition plus (a : regex) : regex := Seq a (Star a).
Definition opt (a : regex) : regex := Alt a Eps.

Definition cat (rs : list regex) : regex := fold_right Seq Eps rs.

Fixpoint alts (rs : list regex) : regex :=
  match rs with
  | [] => Class (fun _ => false)
  | [r] => r
  | r :: rs' => Alt r (alts rs')
  end.

Definition str (s : string) : regex := cat (map Char (lit s)).
Arguments str s%_string.

Definition ws : regex := Class is_space.
Definition digit : regex := Class is_digit.

(** Canonicalize of the [i] flag without the [u] flag: a code unit is
    compared through its upper-case form, except that a code unit of 128 or
    more is never mapped below 128.  Every literal character of the client's
    patterns is ASCII, so against them a code unit of 128 or more behaves as
    if left unchanged, which is what this definition does. *)
Definition canonicalize (c : code_unit) : code_unit :=
  if ((97 <=? c) && (c <=? 122))%N then (c - 32)%N else c.

Definition char_match (ignoreCase : bool) (c x : code_unit) : bool :=
  if ignoreCase then N.eqb (canonicalize x) (canonicalize c) else N.eqb x c.

(** All the ways [a*] can consume a prefix of [s], given how [a] does;
    an iteration that consumes nothing is not repeated. *)
Fixpoint star_residuals (step : js_string -> list js_string)
         (fuel : nat) (s : js_string) : list js_string :=
  match fuel with
  | O => [s]
  | S fuel' =>
      s :: flat_map (star_residuals step fuel')
             (filter (fun s' => length s' <? length s) (step s))
  end.

(** [residuals i r s]: the rests of [s] after each way [r] matches a prefix
    of [s], in the order a backtracking matcher tries them. *)
Fixpoint residuals (i : bool) (r : regex) (s : js_string) : list js_string :=
  match r with
  | Eps => [s]
  | Char c =>
      match s with
      | x :: s' => if char_match i c x then [s'] else []
      | [] => []
      end
  | Class p =>
      match s with
      | x :: s' => if p x then [s'] else []
      | [] => []
      end
  | Seq a b => flat_map (residuals i b) (residuals i a s)
  | Alt a b => residuals i a s ++ residuals i b s
  | Star a => star_residuals (residuals i a) (S (length s)) s
  end.

Definition matches_here (i : bool) (r : regex) (s : js_string) : bool :=
  match residuals i r s with
  | [] => false
  | _ :: _ => true
  end.

Fixpoint matches_somewhere (i : bool) (r : regex) (s : js_string) : bool :=
  matches_here i r s ||
  match s with
  | [] => false
  | _ :: s' => matches_somewhere i r s'
  end.

Record RegExp : Type := mkRegExp {
  anchored : bool;      (* the pattern starts with ^ *)
  body : regex;
  ignoreCase : bool     (* the i flag *)
}.

(** [RegExp.prototype.test]. *)
Definition test (re : RegExp) (s : js_string) : bool :=
  if anchored re then matches_here (ignoreCase re) (body re) s
  else matches_somewhere (ignoreCase re) (body re) s.

(** The three shapes of regular-expression literals in the client:
    [/^r/i], [/^r/] and [/r/i]. *)
Definition re_start_i (r : regex) : RegExp := mkRegExp true r true.
Definition re_start (r : regex) : RegExp := mkRegExp true r false.
Definition re_any_i (r : regex) : RegExp := mkRegExp false r true.

(** ** The client *)

(** The six strings [_classifyError] returns. *)
Inductive ErrorType : Type :=
| syntax | reference | type_error | timeout | wine | runtime.

Definition ErrorType_name (t : ErrorType) : js_string :=
  match t with
  | syntax => lit "syntax"
  | reference => lit "reference"
  | type_error => lit "type"
  | timeout => lit "timeout"
  | wine => lit "wine"
  | runtime => lit "runtime"
  end.

(** The [AHKError] objects of the [errors] array. *)
Record AHKError : Type := mkAHKError {
  line : nat;
  message : js_string;
  context : list js_string;
  type : ErrorType
}.

(** [_classifyError(message)]. *)
Definition _classifyError (message : js_string) : ErrorType :=
  if test (re_any_i (alts [str "syntax"; str "unexpected"; str "missing";
                           str "invalid"])) message then syntax
  else if test (re_any_i (alts [str "undefined"; str "nonexistent";
                                str "not found"; str "unset"])) message
  then reference
  else if test (re_any_i (alts [str "type"; str "typeerror"])) message
  then type_error
  else if test (re_any_i (alts [str "timeout"; str "timed out"])) message
  then timeout
  else if test (re_any_i (alts [str "wine:"; str "err:"; str "fixme:"]))
            message
  then wine
  else runtime.

(** The [errorPatterns] array of [_detectErrors]. *)
Definition errorPatterns : list RegExp :=
  [ (* AHK v1 errors *)
    re_start_i (cat [str "Error";
                     opt (cat [plus ws; str "in"; plus ws; str "#include"]);
                     str ":"]);
    re_start_i (cat [str "Error:"; plus ws]);
    re_any_i (cat [str "-->"; Star ws; str "Line Text:"]);
    re_any_i (cat [str "-->"; Star ws; str "Line#:"]);
    re_start_i (cat [str "Specifically:"; plus ws]);
    re_start_i
      (str "The following variable name contains an illegal character:");
    re_start_i (str "Call to nonexistent function");
    re_start_i (cat [str "Duplicate ";
                     alts [str "function"; str "label"; str "hotkey"]]);
    re_start_i (str "Invalid hotkey");
    re_start_i (cat [str "Missing ";
                     alts [str "comma"; str "closing"; str "opening"]]);
    re_start_i (str "Unexpected end of file");
    re_start_i (str "This line does not contain a recognized action");
    re_start_i (str "Target label does not exist");
    (* AHK v2 errors *)
    re_start (cat [alts [str "Error"; str "ValueError"; str "TypeError";
                         str "OSError"; str "TargetError"; str "MemberError";
                         str "PropertyError"; str "MethodError";
                         str "UnsetError"; str "UnsetItemError";
                         str "ZeroDivisionError"];
                   str ":"]);
    re_start (cat [plus ws; str "Line "; plus digit; str ":"]);
    re_start (cat [plus ws; str "What: "]);
    re_start (cat [plus ws; str "File: "]);
    re_start (cat [plus ws; str "Stack:"]);
    (* Wine/system errors *)
    re_start_i (str "wine:");
    re_start_i (str "err:");
    re_start_i (str "fixme:") ].

(** [errorPatterns.some(pattern => pattern.test(trimmedLine))]. *)
Definition isErrorLine (trimmedLine : js_string) : bool :=
  existsb (fun pattern => test pattern trimmedLine) errorPatterns.

(** The test of the first inner [if] of the loop: the trimmed line looks
    like trace or context. *)
Definition isContinuation (trimmedLine : js_string) : bool :=
  startsWith trimmedLine (lit "-->") ||
  startsWith trimmedLine (lit "Line") ||
  startsWith trimmedLine (lit "What:") ||
  startsWith trimmedLine (lit "File:") ||
  startsWith trimmedLine (lit "Stack:") ||
  test (re_start (cat [plus digit; str ":"])) trimmedLine.

(** The test of the second inner [if]: the end of an error block. *)
Definition isBlockEnd (trimmedLine : js_string) : bool :=
  js_string_eqb trimmedLine [] ||
  (negb (startsWith trimmedLine (lit " ")) &&
   negb (startsWith trimmedLine [TAB])).

(** The variables the loop of [_detectErrors] updates.  An object pushed on
    [errors] is never written again: [currentError] is set to a fresh object
    or to [null] right after each push inside the loop. *)
Record scan_state : Type := mkState {
  errors : list AHKError;
  currentError : option AHKError;
  inErrorBlock : bool
}.

Definition init_state : scan_state := mkState [] None false.

(** [errors.push(currentError)] under [if (currentError)]. *)
Definition push_current (st : scan_state) : list AHKError :=
  match currentError st with
  | Some e => errors st ++ [e]
  | None => errors st
  end.

(** [currentError.context.push(trimmedLine)]. *)
Definition push_context (e : AHKError) (trimmedLine : js_string) : AHKError :=
  mkAHKError (line e) (message e) (context e ++ [trimmedLine]) (type e).

(** One iteration of the loop, at index [i] on [lines[i]]. *)
Definition scan_line (i : nat) (line_i : js_string) (st : scan_state)
  : scan_state :=
  let trimmedLine := trim line_i in
  if isErrorLine trimmedLine then
    mkState (push_current st)
            (Some (mkAHKError (i + 1) trimmedLine []
                              (_classifyError trimmedLine)))
            true
  else
    match inErrorBlock st, currentError st with
    | true, Some cur =>
        if isContinuation trimmedLine then
          mkState (errors st) (Some (push_context cur trimmedLine)) true
        else if isBlockEnd trimmedLine then
          mkState (errors st ++ [cur]) None false
        else
          mkState (errors st) (Some (push_context cur trimmedLine)) true
    | _, _ => st
    end.

(** The loop [for (let i = 0; i < lines.length; i++)], from index [i]. *)
Fixpoint scan (i : nat) (lines : list js_string) (st : scan_state)
  : scan_state :=
  match lines with
  | [] => st
  | l :: rest => scan (S i) rest (scan_line i l st)
  end.

(** [_detectErrors(output)]. *)
Definition _detectErrors (output : js_string) : list AHKError :=
  let lines := split NL output in
  push_current (scan 0 lines init_state).

(** The string [_generateSummary] returns on a timeout. *)
Definition timeout_summary : js_string :=
  lit "Script execution timed out (exceeded 7 seconds). Check for infinite loops or blocking operations.".

(** The function mapped over [errors] in [_generateSummary]. *)
Definition render_error (e : AHKError) : js_string :=
  let msg := lit "[" ++ ErrorType_name (type e) ++ lit "] " ++ message e in
  if 0 <? length (context e) then
    msg ++ NL :: lit "  " ++ join (NL :: lit "  ") (firstn 3 (context e))
  else msg.

(** [_generateSummary(output, errors, timedOut)]. *)
Definition _generateSummary (output : js_string) (errs : list AHKError)
           (timedOut : bool) : js_string :=
  if timedOut then timeout_summary
  else if length errs =? 0 then
    let outputPreview :=
      if 200 <? length output then firstn 200 output ++ lit "..."
      else output in
    lit "Script executed successfully." ++ NL :: lit "Output: " ++
      (match outputPreview with
       | [] => lit "(no output)"
       | _ :: _ => outputPreview
       end)
  else
    let errorSummary := join [NL; NL] (map render_error errs) in
    lit "Script failed with " ++ number_to_string (length errs) ++
      lit " error(s):" ++ NL :: NL :: errorSummary.

(** The response body of the API, as [_parseResult] reads it: [stdout] may be
    missing, [time] is a number or [null] ([None]).  The number is only
    stored, so its type is left open. *)
Record ApiResult (number : Type) : Type := mkApiResult {
  stdout : option js_string;
  time : option number;
  language : js_string
}.

(** The object [_parseResult] returns. *)
Record ExecutionResult (number : Type) : Type := mkExecutionResult {
  success : bool;
  output : js_string;
  executionTime : option number;
  timedOut : bool;
  res_language : js_string;
  res_errors : list AHKError;
  hasErrors : bool;
  summary : js_string
}.

(** [_parseResult(result, code)]; [code] is not used. *)
Definition _parseResult {number : Type} (result : ApiResult number)
  : ExecutionResult number :=
  let output :=
    match stdout result with
    | Some ((_ :: _) as s) => s
    | Some [] | None => []
    end in
  let timedOut :=
    match time result with
    | None => true
    | Some _ => false
    end in
  let errs := _detectErrors output in
  mkExecutionResult
    ((length errs =? 0) && negb timedOut)
    output
    (time result)
    timedOut
    (language result)
    errs
    (0 <? length errs)
    (_generateSummary output errs timedOut).


(** ** Case-insensitive substring tests

    What the alternations of literals in [_classifyError] decide, stated
    without regular expressions. *)

Fixpoint prefix_ci (w s : js_string) : bool :=
  match w, s with
  | [], _ => true
  | p :: w', c :: s' => N.eqb (canonicalize c) (canonicalize p) && prefix_ci w' s'
  | _ :: _, [] => false
  end.

Fixpoint includes_ci (w s : js_string) : bool :=
  prefix_ci w s ||
  match s with
  | [] => false
  | _ :: s' => includes_ci w s'
  end.

(** The priority list as the specification words it: rule 5 asks for a
    message that starts with one of the three host prefixes. *)
Definition classify_spec (m : js_string) : ErrorType :=
  if existsb (fun w => includes_ci w m)
       [lit "syntax"; lit "unexpected"; lit "missing"; lit "invalid"]
  then syntax
  else if existsb (fun w => includes_ci w m)
            [lit "undefined"; lit "nonexistent"; lit "not found"; lit "unset"]
  then reference
  else if includes_ci (lit "type") m then type_error
  else if existsb (fun w => includes_ci w m) [lit "timeout"; lit "timed out"]
  then timeout
  else if existsb (fun w => prefix_ci w m) [lit "wine:"; lit "err:"; lit "fixme:"]
  then wine
  else runtime.

(** The same list with rule 5 as a substring test, like the other rules. *)
Definition classify_contains (m : js_string) : ErrorType :=
  if existsb (fun w => includes_ci w m)
       [lit "syntax"; lit "unexpected"; lit "missing"; lit "invalid"]
  then syntax
  else if existsb (fun w => includes_ci w m)
            [lit "undefined"; lit "nonexistent"; lit "not found"; lit "unset"]
  then reference
  else if includes_ci (lit "type") m then type_error
  else if existsb (fun w => includes_ci w m) [lit "timeout"; lit "timed out"]
  then timeout
  else if existsb (fun w => includes_ci w m) [lit "wine:"; lit "err:"; lit "fixme:"]
  then wine
  else runtime.

(** The [(line, message)] pairs of the start lines of [lines], numbering
    the first line [i]. *)
Fixpoint headers (i : nat) (lines : list js_string) : list (nat * js_string) :=
  match lines with
  | [] => []
  | l :: rest =>
      if isErrorLine (trim l) then (i, trim l) :: headers (S i) rest
      else headers (S i) rest
  end.

Definition header_of (e : AHKError) : nat * js_string := (line e, message e).

(** [e] with the lines [more] pushed on its context. *)
Definition add_context (e : AHKError) (more : list js_string) : AHKError :=
  mkAHKError (line e) (message e) (context e ++ more) (type e).

(** ** The rest of the client and the server's choice of language *)

(** [String.prototype.endsWith] and [String.prototype.includes]. *)
Definition endsWith (s suffix : js_string) : bool :=
  startsWith (rev s) (rev suffix).

Fixpoint includes (s w : js_string) : bool :=
  startsWith s w ||
  match s with
  | [] => false
  | _ :: s' => includes s' w
  end.

(** [value || fallback] on a string that may be missing: the empty string
    is falsy. *)
Definition or_string (value : option js_string) (fallback : js_string)
  : js_string :=
  match value with
  | Some ((_ :: _) as s) => s
  | Some [] | None => fallback
  end.

(** [DEFAULT_BASE_URL], from the environment variable [CLOUDAHK_URL] as it
    was when the module was loaded, and [DEFAULT_TIMEOUT]. *)
Definition DEFAULT_BASE_URL (CLOUDAHK_URL : option js_string) : js_string :=
  or_string CLOUDAHK_URL (lit "http://localhost:8000").

Definition DEFAULT_TIMEOUT : Z := 7000.

(** The [options] of the constructor; the timeout is taken as a whole
    number of milliseconds. *)
Record ClientOptions : Type := mkClientOptions {
  opt_baseUrl : option js_string;
  opt_timeout : option Z
}.

Record CloudAHKClient : Type := mkCloudAHKClient {
  baseUrl : js_string;
  client_timeout : Z
}.

(** [constructor(options = {})]; [0] is falsy. *)
Definition constructor (CLOUDAHK_URL : option js_string)
           (options : ClientOptions) : CloudAHKClient :=
  mkCloudAHKClient
    (or_string (opt_baseUrl options) (DEFAULT_BASE_URL CLOUDAHK_URL))
    (match opt_timeout options with
     | Some t => if Z.eqb t 0 then DEFAULT_TIMEOUT else t
     | None => DEFAULT_TIMEOUT
     end).


(** The object [validate] returns. *)
Record ValidationResult : Type := mkValidationResult {
  valid : bool;
  val_errors : list AHKError;
  val_message : js_string
}.

(** [validate(code, options)], from the [result] that
    [await this.run(code, options)] gave. *)
Definition validate {number : Type} (result : ExecutionResult number)
  : ValidationResult :=
  mkValidationResult
    (success result)
    (res_errors result)
    (if success result then lit "Code is valid and runs without errors"
     else summary result).

(** In the MCP server: [args.version === 'v2' ? 'ahk2' : 'ahk'], for
    [validate_ahk] and [run_ahk_file]. *)
Definition version_language (version : option js_string) : js_string :=
  match version with
  | Some v => if js_string_eqb v (lit "v2") then lit "ahk2" else lit "ahk"
  | None => lit "ahk"
  end.

(** The language [run_ahk_file] runs [code], read from [filePath], in.
    [!args.version] holds of a missing and of an empty version. *)
Definition file_language (version : option js_string)
           (filePath code : js_string) : js_string :=
  let language := version_language version in
  match version with
  | Some (_ :: _) => language
  | Some [] | None =>
      if endsWith filePath (lit ".ahk2") ||
         includes code (lit "#Requires AutoHotkey v2")
      then lit "ahk2"
      else language
  end.

(** ** Predicates on the detected errors *)

(** [e] moved down by [k] lines. *)
Definition shift_line (k : nat) (e : AHKError) : AHKError :=
  mkAHKError (line e + k) (message e) (context e) (type e).

(** [e] with its context cut to three lines. *)
Definition clip_context (e : AHKError) : AHKError :=
  mkAHKError (line e) (message e) (firstn 3 (context e)) (type e).

(** The header of [e] is line number [line e] of [lines], trimmed, a start
    line, and its type is that of the message. *)
Definition header_ok (lines : list js_string) (e : AHKError) : Prop :=
  1 <= line e /\
  nth_error (map trim lines) (line e - 1) = Some (message e) /\
  isErrorLine (message e) = true /\
  type e = _classifyError (message e).

(** The context of [e] is made of the lines that follow its header, one
    after the other and trimmed; each matches a continuation pattern and
    none is a start line. *)
Definition context_ok (lines : list js_string) (e : AHKError) : Prop :=
  line e + length (context e) <= length lines /\
  context e =
    map trim (firstn (length (context e)) (skipn (line e) lines)) /\
  Forall (fun c => isContinuation c = true /\ isErrorLine c = false)
         (context e).

Definition block_ok (lines : list js_string) (e : AHKError) : Prop :=
  header_ok lines e /\ context_ok lines e.

(** The line after the block of [e], when there is one, is a start line or
    does not match a continuation pattern: the context cannot be longer. *)
Definition context_maximal (lines : list js_string) (e : AHKError) : Prop :=
  forall l,
    nth_error lines (line e + length (context e)) = Some l ->
    isErrorLine (trim l) = true \/ isContinuation (trim l) = false.

(** The same of a block that was closed within [lines]. *)
Definition closed_ok (lines : list js_string) (e : AHKError) : Prop :=
  line e + length (context e) < length lines /\ context_maximal lines e.

(** The block of [e1] ends before the header of [e2]. *)
Definition apart (e1 e2 : AHKError) : Prop :=
  line e1 + length (context e1) < line e2.

(** A text with no white space at either end, no line break, not empty. *)
Definition clean (s : js_string) : Prop :=
  s <> [] /\ trim s = s /\ ~ In NL s.

(** [inErrorBlock] says whether [currentError] is set. *)
Definition coherent (st : scan_state) : Prop :=
  inErrorBlock st =
  match currentError st with Some _ => true | None => false end.

(** What holds of the loop variables once the lines [pre] are done. *)
Definition scan_inv (pre : list js_string) (st : scan_state) : Prop :=
  coherent st /\
  Forall (block_ok pre) (errors st) /\
  StronglySorted apart (errors st) /\
  match currentError st with
  | None => True
  | Some cur =>
      block_ok pre cur /\
      line cur + length (context cur) = length pre /\
      Forall (fun e => apart e cur) (errors st)
  end.

(** The loop variables with [done] put before [errors], and moved down by
    [k] lines. *)
Definition with_done (done : list AHKError) (st : scan_state) : scan_state :=
  mkState (done ++ errors st) (currentError st) (inErrorBlock st).

Definition shift_state (k : nat) (st : scan_state) : scan_state :=
  mkState (map (shift_line k) (errors st))
          (option_map (shift_line k) (currentError st))
          (inErrorBlock st).

(** ** Regular expressions of literals *)

Section RegexFacts.

Variable i : bool.

Lemma matches_here_Alt (a b : regex) (s : js_string) :
  matches_here i (Alt a b) s = matches_here i a s || matches_here i b s.
Proof.
  unfold matches_here; simpl.
  destruct (residuals i a s); reflexivity.
Qed.

Lemma matches_here_alts (rs : list regex) (s : js_string) :
  matches_here i (alts rs) s = existsb (fun r => matches_here i r s) rs.
Proof.
  induction rs as [|r rs IH].
  - unfold matches_here; simpl. destruct s; reflexivity.
  - destruct rs as [|r' rs].
    + simpl. now rewrite orb_false_r.
    + change (alts (r :: r' :: rs)) with (Alt r (alts (r' :: rs))).
      rewrite matches_here_Alt, IH. reflexivity.
Qed.

Lemma existsb_orb {A : Type} (f g : A -> bool) (xs : list A) :
  existsb (fun x => f x || g x) xs = existsb f xs || existsb g xs.
Proof.
  induction xs as [|x xs IH]; simpl; [reflexivity|].
  rewrite IH. destruct (f x), (g x), (existsb f xs); reflexivity.
Qed.

Lemma matches_somewhere_alts (rs : list regex) (s : js_string) :
  matches_somewhere i (alts rs) s =
  existsb (fun r => matches_somewhere i r s) rs.
Proof.
  induction s as [|c s IH].
  - simpl. rewrite orb_false_r, matches_here_alts.
    induction rs as [|r rs IHrs]; simpl; [reflexivity|].
    now rewrite IHrs, orb_false_r.
  - simpl. rewrite matches_here_alts, IH.
    symmetry. apply (existsb_orb (fun r => matches_here i r (c :: s))).
Qed.

End RegexFacts.

Lemma residuals_literal (w s : js_string) :
  residuals true (cat (map Char w)) s =
  if prefix_ci w s then [skipn (length w) s] else [].
Proof.
  revert s; induction w as [|p w IH]; intros s.
  - reflexivity.
  - simpl. destruct s as [|c s]; [reflexivity|].
    unfold char_match.
    destruct (N.eqb (canonicalize c) (canonicalize p)); simpl.
    + rewrite app_nil_r. apply IH.
    + reflexivity.
Qed.

Lemma matches_here_str (w : string) (s : js_string) :
  matches_here true (str w) s = prefix_ci (lit w) s.
Proof.
  unfold matches_here, str. rewrite residuals_literal.
  destruct (prefix_ci (lit w) s); reflexivity.
Qed.

Lemma matches_somewhere_str (w : string) (s : js_string) :
  matches_somewhere true (str w) s = includes_ci (lit w) s.
Proof.
  induction s as [|c s IH]; simpl; rewrite matches_here_str.
  - reflexivity.
  - now rewrite IH.
Qed.

Lemma test_any_of (ws : list string) (s : js_string) :
  test (re_any_i (alts (map (fun w => str w) ws))) s =
  existsb (fun w => includes_ci (lit w) s) ws.
Proof.
  unfold test, re_any_i; simpl.
  rewrite matches_somewhere_alts.
  induction ws as [|w ws IH]; simpl; [reflexivity|].
  now rewrite matches_somewhere_str, IH.
Qed.

Lemma prefix_ci_app (w w' s : js_string) :
  prefix_ci (w ++ w') s = true -> prefix_ci w s = true.
Proof.
  revert s; induction w as [|p w IH]; intros s; simpl; [reflexivity|].
  destruct s as [|c s]; [discriminate|].
  intros H. apply andb_true_iff in H. destruct H as [H1 H2].
  rewrite H1. simpl. now apply IH.
Qed.

Lemma includes_ci_app (w w' s : js_string) :
  includes_ci (w ++ w') s = true -> includes_ci w s = true.
Proof.
  induction s as [|c s IH]; simpl; intros H;
    apply orb_true_iff in H; apply orb_true_iff; destruct H as [H|H].
  - left. now apply prefix_ci_app with (w' := w').
  - discriminate.
  - left. now apply prefix_ci_app with (w' := w').
  - right. now apply IH.
Qed.

Lemma classify_cascade (m : js_string) :
  _classifyError m = classify_contains m.
Proof.
  unfold _classifyError, classify_contains.
  rewrite (test_any_of ["syntax"; "unexpected"; "missing"; "invalid"]%string).
  rewrite (test_any_of ["undefined"; "nonexistent"; "not found"; "unset"]%string).
  rewrite (test_any_of ["type"; "typeerror"]%string).
  rewrite (test_any_of ["timeout"; "timed out"]%string).
  rewrite (test_any_of ["wine:"; "err:"; "fixme:"]%string).
  cbn [existsb].
  assert (Ht : includes_ci (lit "type") m || (includes_ci (lit "typeerror") m || false)
               = includes_ci (lit "type") m).
  { destruct (includes_ci (lit "type") m) eqn:E; [reflexivity|].
    destruct (includes_ci (lit "typeerror") m) eqn:E'; [|reflexivity].
    apply (includes_ci_app (lit "type") (lit "error")) in E'. congruence. }
  rewrite Ht. reflexivity.
Qed.

(** ** Trimming *)

Lemma trimStart_snoc (u : js_string) (c : code_unit) :
  is_space c = false -> exists v, trimStart (u ++ [c]) = v ++ [c].
Proof.
  intros Hc. induction u as [|x u IH]; simpl.
  - rewrite Hc. now exists [].
  - destruct (is_space x).
    + exact IH.
    + now exists (x :: u).
Qed.

Lemma trimStart_head (s : js_string) :
  trimStart s = [] \/
  exists c t, trimStart s = c :: t /\ is_space c = false.
Proof.
  induction s as [|x s IH]; simpl.
  - now left.
  - destruct (is_space x) eqn:Hx.
    + exact IH.
    + right. now exists x, s.
Qed.

(** A trimmed line is empty or begins with a code unit that is not white
    space. *)
Lemma trim_head (s : js_string) :
  trim s = [] \/ exists c t, trim s = c :: t /\ is_space c = false.
Proof.
  unfold trim, trimEnd.
  destruct (trimStart_head s) as [E | (c & t & E & Hc)]; rewrite E.
  - now left.
  - right. simpl.
    destruct (trimStart_snoc (rev t) c Hc) as [v Hv].
    rewrite Hv, rev_app_distr. simpl. now exists c, (rev v).
Qed.

(** The second inner test of the loop looks at the trimmed line, so it
    holds of every line. *)
Lemma isBlockEnd_trim (l : js_string) : isBlockEnd (trim l) = true.
Proof.
  unfold isBlockEnd.
  destruct (trim_head l) as [E | (c & t & E & Hc)]; rewrite E.
  - reflexivity.
  - unfold js_string_eqb.
    destruct (list_eq_dec N.eq_dec (c :: t) []); [discriminate|].
    simpl.
    destruct (N.eqb_spec c 32) as [->|_]; [discriminate|].
    destruct (N.eqb_spec c TAB) as [->|_]; [discriminate|].
    reflexivity.
Qed.

(** The four patterns that begin with [^\s+] never match a trimmed line. *)
Lemma leading_space_pattern_dead (r : regex) (l : js_string) :
  test (re_start (Seq (plus ws) r)) (trim l) = false.
Proof.
  unfold test, re_start, matches_here; simpl.
  destruct (trim_head l) as [E | (c & t & E & Hc)]; rewrite E; simpl.
  - reflexivity.
  - now rewrite Hc.
Qed.

(** ** The scan *)

Lemma scan_app (a b : list js_string) (i : nat) (st : scan_state) :
  scan i (a ++ b) st = scan (i + length a) b (scan i a st).
Proof.
  revert i st; induction a as [|l a IH]; intros i st; simpl.
  - now rewrite Nat.add_0_r.
  - rewrite IH. f_equal. lia.
Qed.

(** What one iteration does, by cases on the three tests. *)
Lemma scan_line_cases (i : nat) (l : js_string) (st : scan_state) :
  (isErrorLine (trim l) = true /\
   scan_line i l st =
   mkState (push_current st)
           (Some (mkAHKError (i + 1) (trim l) [] (_classifyError (trim l))))
           true) \/
  (isErrorLine (trim l) = false /\
   exists cur, currentError st = Some cur /\ inErrorBlock st = true /\
     scan_line i l st =
     mkState (errors st) (Some (push_context cur (trim l))) true) \/
  (isErrorLine (trim l) = false /\
   exists cur, currentError st = Some cur /\ inErrorBlock st = true /\
     scan_line i l st = mkState (errors st ++ [cur]) None false) \/
  (isErrorLine (trim l) = false /\ scan_line i l st = st /\
   (currentError st = None \/ inErrorBlock st = false)).
Proof.
  unfold scan_line.
  destruct (isErrorLine (trim l)); [now left | right].
  destruct (inErrorBlock st) eqn:Hb, (currentError st) as [cur|] eqn:Hc.
  - destruct (isContinuation (trim l)).
    + left. split; [reflexivity|]. now exists cur.
    + destruct (isBlockEnd (trim l)).
      * right; left. split; [reflexivity|]. now exists cur.
      * left. split; [reflexivity|]. now exists cur.
  - right; right. repeat split. now left.
  - right; right. repeat split. now right.
  - right; right. repeat split. now left.
Qed.

Lemma scan_line_headers (i : nat) (l : js_string) (st : scan_state) :
  map header_of (push_current (scan_line i l st)) =
  map header_of (push_current st) ++
  (if isErrorLine (trim l) then [(i + 1, trim l)] else []).
Proof.
  destruct (scan_line_cases i l st)
    as [(H & E) | [(H & cur & Hc & Hb & E) | [(H & cur & Hc & Hb & E)
                                              | (H & E & _)]]];
    rewrite E, H; unfold push_current; simpl; rewrite ?Hc.
  - rewrite map_app. reflexivity.
  - rewrite !map_app, app_nil_r. reflexivity.
  - now rewrite app_nil_r.
  - now rewrite app_nil_r.
Qed.

Lemma scan_headers (rest : list js_string) (i : nat) (st : scan_state) :
  map header_of (push_current (scan i rest st)) =
  map header_of (push_current st) ++ headers (S i) rest.
Proof.
  revert i st; induction rest as [|l rest IH]; intros i st; simpl.
  - now rewrite app_nil_r.
  - rewrite IH, scan_line_headers, Nat.add_1_r.
    destruct (isErrorLine (trim l)); simpl.
    + now rewrite <- app_assoc.
    + now rewrite app_nil_r.
Qed.

Lemma headers_lower_bound (lines : list js_string) (k : nat) :
  Forall (fun n => k <= n) (map fst (headers k lines)).
Proof.
  revert k; induction lines as [|l lines IH]; intros k; simpl.
  - constructor.
  - assert (Forall (fun n => k <= n) (map fst (headers (S k) lines))).
    { eapply Forall_impl; [|apply IH]. simpl. intros; lia. }
    destruct (isErrorLine (trim l)); simpl; [constructor; [lia|] |]; assumption.
Qed.

Lemma headers_increasing (lines : list js_string) (k : nat) :
  StronglySorted lt (map fst (headers k lines)).
Proof.
  revert k; induction lines as [|l lines IH]; intros k; simpl.
  - constructor.
  - destruct (isErrorLine (trim l)); simpl; [|apply IH].
    constructor; [apply IH|].
    eapply Forall_impl; [|apply headers_lower_bound]. simpl. intros; lia.
Qed.

(** Records already on [errors] stay there, in place. *)
Lemma scan_errors_prefix (rest : list js_string) (i : nat) (st : scan_state) :
  exists more, push_current (scan i rest st) = errors st ++ more.
Proof.
  revert i st; induction rest as [|l rest IH]; intros i st; simpl.
  - unfold push_current. destruct (currentError st) as [e|].
    + now exists [e].
    + exists []. now rewrite app_nil_r.
  - destruct (IH (S i) (scan_line i l st)) as [more Hm]. rewrite Hm.
    destruct (scan_line_cases i l st)
      as [(H & E) | [(H & cur & Hc & Hb & E) | [(H & cur & Hc & Hb & E)
                                                | (H & E & _)]]];
      rewrite E; simpl.
    + unfold push_current. destruct (currentError st) as [e|].
      * exists (e :: more). now rewrite <- app_assoc.
      * now exists more.
    + now exists more.
    + exists (cur :: more). now rewrite <- app_assoc.
    + now exists more.
Qed.

Lemma add_context_push (e : AHKError) (t : js_string) (more : list js_string) :
  add_context (push_context e t) more = add_context e (t :: more).
Proof.
  unfold add_context, push_context; simpl. now rewrite <- app_assoc.
Qed.

Lemma add_context_nil (e : AHKError) : add_context e [] = e.
Proof.
  destruct e; unfold add_context; simpl. now rewrite app_nil_r.
Qed.

(** From an open block, the record that is finally pushed carries the
    trimmed forms of some run of the lines that follow its header. *)
Lemma scan_open_block (rest : list js_string) (i : nat)
      (done : list AHKError) (cur : AHKError) :
  exists k later,
    push_current (scan i rest (mkState done (Some cur) true)) =
    done ++ add_context cur (map trim (firstn k rest)) :: later.
Proof.
  revert i done cur; induction rest as [|l rest IH]; intros i done cur.
  - exists 0, []. simpl. now rewrite add_context_nil.
  - simpl scan.
    destruct (scan_line_cases i l (mkState done (Some cur) true))
      as [(H & E) | [(H & c & Hc & Hb & E) | [(H & c & Hc & Hb & E)
                                              | (H & E & [Hn | Hn])]]];
      simpl in *; try discriminate; rewrite E.
    + destruct (IH (S i) (done ++ [cur])
                   (mkAHKError (i + 1) (trim l) [] (_classifyError (trim l))))
        as (k & later & Hk).
      exists 0, (add_context
                   (mkAHKError (i + 1) (trim l) [] (_classifyError (trim l)))
                   (map trim (firstn k rest)) :: later).
      unfold push_current at 1 in Hk. unfold push_current at 1.
      simpl. rewrite add_context_nil.
      unfold push_current in Hk |- *. simpl in Hk |- *.
      rewrite Hk, <- app_assoc. reflexivity.
    + injection Hc as <-.
      destruct (IH (S i) done (push_context cur (trim l))) as (k & later & Hk).
      exists (S k), later. rewrite Hk, add_context_push. reflexivity.
    + injection Hc as <-.
      destruct (scan_errors_prefix rest (S i) (mkState (done ++ [cur]) None false))
        as [more Hm].
      exists 0, more. rewrite Hm. simpl. now rewrite add_context_nil, <- app_assoc.
Qed.

(** ** Worked examples *)

Example start_line_include :
  isErrorLine (trim (lit "Error   in  #include: x")) = true.
Proof. reflexivity. Qed.

Example start_line_case_insensitive :
  isErrorLine (trim (lit "  error: x")) = true /\
  isErrorLine (trim (lit "WINE: cannot find")) = true.
Proof. split; reflexivity. Qed.

Example start_line_typed_header_case_sensitive :
  isErrorLine (lit "ValueError: x") = true /\
  isErrorLine (lit "valueerror: x") = false.
Proof. split; reflexivity. Qed.

Example start_line_arrow_anywhere :
  isErrorLine (lit "foo -->   Line Text: x") = true /\
  isErrorLine (lit "--> Line#: 5") = true /\
  isErrorLine (lit "--> 5") = false.
Proof. repeat split; reflexivity. Qed.

Example start_line_duplicate :
  isErrorLine (lit "Duplicate label") = true /\
  isErrorLine (lit "Duplicate foo") = false.
Proof. split; reflexivity. Qed.

Example continuation_digits :
  isContinuation (lit "012: x") = true /\
  isContinuation (lit "12 x") = false /\
  isContinuation (lit "Linear") = true.
Proof. repeat split; reflexivity. Qed.

Example split_trailing_newline :
  split NL (lit "a" ++ [NL]) = [lit "a"; []] /\ split NL [] = [[]].
Proof. split; reflexivity. Qed.

Example trim_both_ends :
  trim (TAB :: lit "  a b  " ++ [13%N]) = lit "a b".
Proof. reflexivity. Qed.

(** The scenarios of the three kinds of summary. *)
Example scenario_hello :
  let r := _parseResult (mkApiResult (Some (lit "Hello World" ++ [NL]))
                                     (Some 1) (lit "ahk")) in
  res_errors r = [] /\ success r = true /\
  summary r = lit "Script executed successfully." ++ NL ::
              lit "Output: Hello World" ++ [NL].
Proof. repeat split; reflexivity. Qed.

Example scenario_nonexistent :
  let r := _parseResult
             (mkApiResult
                (Some (lit "Error: Call to nonexistent function." ++ NL ::
                       lit "  Line#: 5" ++ NL ::
                       lit "  Line Text: foo()" ++ [NL]))
                (Some 2) (lit "ahk")) in
  res_errors r =
    [mkAHKError 1 (lit "Error: Call to nonexistent function.")
                [lit "Line#: 5"; lit "Line Text: foo()"] reference] /\
  success r = false /\
  summary r =
    lit "Script failed with 1 error(s):" ++ NL :: NL ::
    lit "[reference] Error: Call to nonexistent function." ++ NL ::
    lit "  Line#: 5" ++ NL :: lit "  Line Text: foo()".
Proof. repeat split; vm_compute; reflexivity. Qed.

Example scenario_timeout :
  let r := _parseResult (@mkApiResult nat (Some (lit "Error: x")) None (lit "ahk")) in
  timedOut r = true /\ success r = false /\ hasErrors r = true /\
  summary r = timeout_summary.
Proof. repeat split; reflexivity. Qed.

(** ** Properties of the analysis *)

(** C1: the object built by [_parseResult] has
    [success = (errors.length = 0 && !timedOut)] and
    [timedOut = (executionTime = null)], where [executionTime] is the time
    of the response, [output] its text (empty when missing) and [errors]
    the errors detected in [output]. *)
Theorem parseResult_invariants (number : Type) (result : ApiResult number) :
  let r := _parseResult result in
  success r = (length (res_errors r) =? 0) && negb (timedOut r) /\
  timedOut r = match executionTime r with None => true | Some _ => false end /\
  executionTime r = time result /\
  output r = match stdout result with Some s => s | None => [] end /\
  res_errors r = _detectErrors (output r).
Proof.
  unfold _parseResult; simpl. repeat split; try reflexivity.
  destruct (stdout result) as [[|c s]|]; reflexivity.
Qed.

(** C10: [hasErrors] says that [errors] is not empty, and without a
    timeout it is the negation of [success]. *)
Theorem hasErrors_spec (number : Type) (result : ApiResult number) :
  let r := _parseResult result in
  hasErrors r = (0 <? length (res_errors r)) /\
  (timedOut r = false -> hasErrors r = negb (success r)).
Proof.
  unfold _parseResult; simpl.
  destruct (length (_detectErrors _)) as [|n]; simpl.
  - split; [reflexivity|]. intros ->. reflexivity.
  - split; reflexivity.
Qed.

Lemma hasErrors_spec_witness :
  let r := _parseResult (mkApiResult (Some (lit "Error: x")) (Some 1) (lit "ahk")) in
  timedOut r = false /\ hasErrors r = negb (success r).
Proof.
  split.
  - reflexivity.
  - apply (proj2 (hasErrors_spec
                    (mkApiResult (Some (lit "Error: x")) (Some 1) (lit "ahk")))).
    reflexivity.
Defined.

(** C6: with [timedOut] true, [_generateSummary] returns the fixed timeout
    string whatever the output and the errors, and a response whose time is
    [null] has that string as its summary. *)
Theorem timeout_summary_forced (output : js_string) (errs : list AHKError) :
  _generateSummary output errs true = timeout_summary /\
  forall (number : Type) (so : option js_string) (lang : js_string),
    summary (_parseResult (@mkApiResult number so None lang)) = timeout_summary.
Proof.
  split; reflexivity.
Qed.

(** C7, as the code has it: without timeout and without errors the summary
    is the success message followed by the output, cut to its first 200
    code units and three dots when it is longer than 200, or by the
    placeholder when the output is the empty string. *)
Theorem success_summary (output : js_string) :
  _generateSummary output [] false =
  lit "Script executed successfully." ++ NL :: lit "Output: " ++
    (if length output =? 0 then lit "(no output)"
     else if 200 <? length output then firstn 200 output ++ lit "..."
          else output).
Proof.
  unfold _generateSummary. cbn [length Nat.eqb].
  do 2 f_equal.
  destruct output as [|c output]; [reflexivity|].
  cbn [length Nat.eqb].
  destruct (200 <? S (length output)) eqn:E; [|reflexivity].
  destruct (firstn 200 (c :: output) ++ lit "...") eqn:F; [|reflexivity].
  apply (f_equal (@length _)) in F. rewrite length_app in F.
  simpl in F. lia.
Qed.

(** C7 fails for an output of white space only: a single blank is shown as
    it is, not replaced by the placeholder. *)
Lemma success_summary_blank_output :
  forallb is_space (lit " ") = true /\
  _generateSummary (lit " ") [] false =
    lit "Script executed successfully." ++ NL :: lit "Output:  " /\
  _generateSummary (lit " ") [] false <>
    lit "Script executed successfully." ++ NL :: lit "Output: (no output)".
Proof.
  repeat split; try reflexivity. vm_compute. discriminate.
Qed.

(** C5, as the code has it: [_classifyError] is the first-match cascade of
    case-insensitive substring tests, the host prefixes of rule 5 included;
    a message with both [syntax] and [undefined] is classified [syntax]. *)
Theorem classify_first_match (m : js_string) :
  _classifyError m = classify_contains m /\
  (includes_ci (lit "syntax") m = true ->
   includes_ci (lit "undefined") m = true ->
   _classifyError m = syntax).
Proof.
  split; [apply classify_cascade|].
  intros Hs _. rewrite classify_cascade. unfold classify_contains.
  cbn [existsb]. now rewrite Hs.
Qed.

Lemma classify_first_match_witness :
  includes_ci (lit "syntax") (lit "Error: Undefined SYNTAX") = true /\
  includes_ci (lit "undefined") (lit "Error: Undefined SYNTAX") = true /\
  _classifyError (lit "Error: Undefined SYNTAX") = syntax.
Proof.
  split; [reflexivity|]. split; [reflexivity|].
  apply (proj2 (classify_first_match (lit "Error: Undefined SYNTAX")));
    reflexivity.
Defined.

(** C5 fails for rule 5 as worded: a message that contains [err:] without
    starting with it is classified [wine], not [runtime]. *)
Lemma classify_host_prefix_inside :
  isErrorLine (lit "Error: stderr: x") = true /\
  _classifyError (lit "Error: stderr: x") = wine /\
  classify_spec (lit "Error: stderr: x") = runtime.
Proof.
  repeat split; vm_compute; reflexivity.
Qed.

(** C9: the detected errors are strictly increasing in [line], and their
    lines and messages are those of the start lines of the output, in the
    order of the output. *)
Theorem errors_follow_headers (output : js_string) :
  StronglySorted lt (map line (_detectErrors output)) /\
  map header_of (_detectErrors output) = headers 1 (split NL output).
Proof.
  assert (H : map header_of (_detectErrors output) = headers 1 (split NL output)).
  { unfold _detectErrors. rewrite scan_headers. reflexivity. }
  split; [|exact H].
  replace (map line (_detectErrors output))
    with (map fst (map header_of (_detectErrors output))).
  - rewrite H. apply headers_increasing.
  - rewrite map_map. reflexivity.
Qed.

(** C8: when two consecutive lines of the output are start lines, the
    result has two adjacent records for them; the first has an empty
    context and the context of the second is made of lines that follow
    it. *)
Theorem back_to_back_headers (output : js_string)
        (pre post : list js_string) (l1 l2 : js_string) :
  split NL output = pre ++ l1 :: l2 :: post ->
  isErrorLine (trim l1) = true ->
  isErrorLine (trim l2) = true ->
  exists before after k,
    _detectErrors output =
    before ++
    mkAHKError (length pre + 1) (trim l1) [] (_classifyError (trim l1)) ::
    mkAHKError (length pre + 2) (trim l2) (map trim (firstn k post))
               (_classifyError (trim l2)) ::
    after.
Proof.
  intros Hsplit H1 H2. unfold _detectErrors. rewrite Hsplit, scan_app.
  simpl. set (st := scan 0 pre init_state).
  unfold scan_line at 2. rewrite H1.
  unfold scan_line at 1. rewrite H2.
  unfold push_current at 2. cbn [currentError errors].
  destruct (scan_open_block post (S (S (length pre)))
              (push_current st ++
               [mkAHKError (length pre + 1) (trim l1) []
                           (_classifyError (trim l1))])
              (mkAHKError (S (length pre) + 1) (trim l2) []
                          (_classifyError (trim l2))))
    as (k & later & Hk).
  exists (push_current st), later, k.
  rewrite Hk, <- app_assoc. simpl. unfold add_context; simpl.
  repeat f_equal. lia.
Qed.

Lemma back_to_back_headers_witness :
  exists before after k,
    _detectErrors (lit "ok" ++ NL :: lit "Error: a" ++ NL :: lit "TypeError: b"
                   ++ NL :: lit "  Line 3" ++ [NL]) =
    before ++
    mkAHKError 2 (lit "Error: a") [] runtime ::
    mkAHKError 3 (lit "TypeError: b") (map trim (firstn k [lit "  Line 3"; []]))
               type_error ::
    after.
Proof.
  apply (back_to_back_headers
           (lit "ok" ++ NL :: lit "Error: a" ++ NL :: lit "TypeError: b"
            ++ NL :: lit "  Line 3" ++ [NL])
           [lit "ok"] [lit "  Line 3"; []] (lit "Error: a") (lit "TypeError: b"));
    reflexivity.
Defined.

(** In an open block, a line that is neither a start line nor a
    continuation line closes the block, indented or not. *)
Lemma plain_line_closes_block (i : nat) (l : js_string) (st : scan_state)
      (cur : AHKError) :
  currentError st = Some cur ->
  inErrorBlock st = true ->
  isErrorLine (trim l) = false ->
  isContinuation (trim l) = false ->
  scan_line i l st = mkState (errors st ++ [cur]) None false.
Proof.
  intros Hc Hb Hs Hk. unfold scan_line.
  now rewrite Hs, Hb, Hc, Hk, isBlockEnd_trim.
Qed.

(** C3, as the code has it: in an open block, a line that is not a start
    line, does not match a continuation pattern, and is empty once trimmed
    or does not begin with a space or a tab, closes the block; the record
    goes to [errors] as it was, so the line is not part of its context. *)
Theorem block_end_discards_line (i : nat) (l : js_string) (st : scan_state)
        (cur : AHKError) (rest : list js_string) :
  currentError st = Some cur ->
  inErrorBlock st = true ->
  isErrorLine (trim l) = false ->
  isContinuation (trim l) = false ->
  trim l = [] \/
    (startsWith l (lit " ") = false /\ startsWith l [TAB] = false) ->
  scan_line i l st = mkState (errors st ++ [cur]) None false /\
  exists more,
    push_current (scan (S i) rest (scan_line i l st)) = errors st ++ cur :: more.
Proof.
  intros Hc Hb Hs Hk _.
  rewrite (plain_line_closes_block i l st Hc Hb Hs Hk).
  split; [reflexivity|].
  destruct (scan_errors_prefix rest (S i) (mkState (errors st ++ [cur]) None false))
    as [more Hm].
  exists more. rewrite Hm. simpl. now rewrite <- app_assoc.
Qed.

Lemma block_end_discards_line_witness :
  let cur := mkAHKError 1 (lit "Error: x") [] runtime in
  scan_line 1 (lit "done") (mkState [] (Some cur) true) =
    mkState [cur] None false /\
  exists more,
    push_current (scan 2 [lit "  more"]
                    (scan_line 1 (lit "done") (mkState [] (Some cur) true))) =
    [] ++ cur :: more.
Proof.
  apply (block_end_discards_line 1 (lit "done")
           (mkState [] (Some (mkAHKError 1 (lit "Error: x") [] runtime)) true)
           [lit "  more"]);
    try reflexivity.
  right. split; reflexivity.
Defined.

(** C3 fails for a line that matches a continuation pattern: [Line 5],
    not indented and not a start line, is pushed on the context of the open
    block, which stays open. *)
Lemma unindented_continuation_kept :
  let cur := mkAHKError 1 (lit "Error: x") [] runtime in
  isErrorLine (trim (lit "Line 5")) = false /\
  startsWith (lit "Line 5") (lit " ") = false /\
  startsWith (lit "Line 5") [TAB] = false /\
  scan_line 1 (lit "Line 5") (mkState [] (Some cur) true) =
    mkState [] (Some (mkAHKError 1 (lit "Error: x") [lit "Line 5"] runtime))
            true /\
  _detectErrors (lit "Error: x" ++ NL :: lit "Line 5" ++ NL :: lit "bye") =
    [mkAHKError 1 (lit "Error: x") [lit "Line 5"] runtime].
Proof.
  repeat split; vm_compute; reflexivity.
Qed.

(** C2, on the code: after the header [Error: boom], the indented line
    [  details here], which is not blank and not a start line, is followed
    by a blank line; the record comes out with an empty context. *)
Theorem indented_detail_dropped :
  isErrorLine (trim (lit "Error: boom")) = true /\
  isErrorLine (trim (lit "  details here")) = false /\
  trim (lit "  details here") = lit "details here" /\
  startsWith (lit "  details here") (lit " ") = true /\
  _detectErrors (lit "Error: boom" ++ NL :: lit "  details here" ++ [NL; NL]) =
    [mkAHKError 1 (lit "Error: boom") [] runtime].
Proof.
  repeat split; vm_compute; reflexivity.
Qed.

(** C4, on the code: the four patterns for second-generation trace lines
    ask for leading white space and are tested on the trimmed line, so they
    match no line at all; such lines are not start lines, and an output
    made of one of them yields no error. *)
Theorem trace_markers_not_start_lines :
  (forall (r : regex) (l : js_string),
      test (re_start (cat (plus ws :: [r]))) (trim l) = false) /\
  isErrorLine (trim (lit "  Line 12: x := y")) = false /\
  isErrorLine (trim (lit "  What: boom")) = false /\
  isErrorLine (trim (lit "  File: C:/a.ahk")) = false /\
  isErrorLine (trim (lit "  Stack:")) = false /\
  _detectErrors (lit "  What: boom") = [].
Proof.
  split.
  - intros r l. apply (leading_space_pattern_dead (Seq r Eps) l).
  - repeat split; vm_compute; reflexivity.
Qed.

(** ** The loop invariant *)

(** Linear arithmetic on lengths of lists of strings, whatever name the
    type of strings goes by. *)
Ltac len_lia := unfold js_string, code_unit in *; lia.

Lemma isErrorLine_empty : isErrorLine [] = false.
Proof. reflexivity. Qed.

Lemma isContinuation_empty : isContinuation [] = false.
Proof. reflexivity. Qed.

(** One iteration from coherent loop variables: the last arm of the inner
    test is never taken. *)
Lemma scan_line_live (i : nat) (l : js_string) (st : scan_state) :
  coherent st ->
  (isErrorLine (trim l) = true /\
   scan_line i l st =
   mkState (push_current st)
           (Some (mkAHKError (i + 1) (trim l) [] (_classifyError (trim l))))
           true) \/
  (isErrorLine (trim l) = false /\
   exists cur, currentError st = Some cur /\
     isContinuation (trim l) = true /\
     scan_line i l st =
     mkState (errors st) (Some (push_context cur (trim l))) true) \/
  (isErrorLine (trim l) = false /\
   exists cur, currentError st = Some cur /\
     isContinuation (trim l) = false /\
     scan_line i l st = mkState (errors st ++ [cur]) None false) \/
  (isErrorLine (trim l) = false /\ currentError st = None /\
   scan_line i l st = st).
Proof.
  unfold coherent, scan_line. intros Hco.
  destruct (isErrorLine (trim l)); [now left | right].
  destruct (currentError st) as [cur|] eqn:Hc; rewrite Hco.
  - destruct (isContinuation (trim l)) eqn:Hk.
    + left. split; [reflexivity|]. now exists cur.
    + right; left. split; [reflexivity|]. exists cur.
      now rewrite isBlockEnd_trim.
  - right; right. repeat split. 
Qed.

Lemma header_ok_more (pre more : list js_string) (e e' : AHKError) :
  line e' = line e -> message e' = message e -> type e' = type e ->
  header_ok pre e -> header_ok (pre ++ more) e'.
Proof.
  intros El Em Et (H1 & Hn & Hs & Ht).
  unfold header_ok. rewrite El, Em, Et. repeat split; try assumption.
  rewrite map_app, nth_error_app1; [assumption|].
  apply nth_error_Some. congruence.
Qed.

Lemma block_ok_more (pre more : list js_string) (e : AHKError) :
  block_ok pre e -> block_ok (pre ++ more) e.
Proof.
  intros [(H1 & Hn & Hs & Ht) (Hb & Hc & Hk)].
  split; [split; [|split; [|split]] | split; [|split]]; try assumption.
  - rewrite map_app, nth_error_app1; [assumption|].
    apply nth_error_Some. congruence.
  - rewrite length_app. len_lia.
  - rewrite skipn_app, firstn_app, length_skipn.
    replace (length (context e) - (length pre - line e)) with 0 by len_lia.
    rewrite firstn_O, app_nil_r. exact Hc.
Qed.

Lemma sorted_snoc (A : Type) (R : A -> A -> Prop) (xs : list A) (x : A) :
  StronglySorted R xs -> Forall (fun y => R y x) xs ->
  StronglySorted R (xs ++ [x]).
Proof.
  induction 1 as [|y ys Hs IH Hy]; intros Hx; simpl.
  - repeat constructor.
  - inversion Hx; subst. constructor; [now apply IH|].
    apply Forall_app; split; [assumption|]. now constructor.
Qed.

Lemma scan_inv_init : scan_inv [] init_state.
Proof.
  repeat split; constructor.
Qed.

Lemma scan_inv_step (pre : list js_string) (l : js_string) (st : scan_state) :
  scan_inv pre st -> scan_inv (pre ++ [l]) (scan_line (length pre) l st).
Proof.
  intros (Hco & Herr & Hsort & Hcur).
  assert (Herr' : Forall (block_ok (pre ++ [l])) (errors st)).
  { eapply Forall_impl; [|exact Herr]. intros e. apply block_ok_more. }
  assert (Hbound : Forall (fun e => line e + length (context e) <= length pre)
                          (errors st)).
  { eapply Forall_impl; [|exact Herr]. intros e [_ (Hb & _)]. exact Hb. }
  destruct (scan_line_live (length pre) l Hco)
    as [(Hs & E) | [(Hs & cur & Hc & Hk & E) | [(Hs & cur & Hc & Hk & E)
                                                | (Hs & Hc & E)]]];
    rewrite E; clear E.
  - (* a start line *)
    assert (Hall : Forall (block_ok (pre ++ [l])) (push_current st) /\
                   StronglySorted apart (push_current st) /\
                   Forall (fun e => line e + length (context e) <= length pre)
                          (push_current st)).
    { unfold push_current. destruct (currentError st) as [cur|].
      - destruct Hcur as (Hok & Hlen & Hap). repeat split.
        + apply Forall_app; split; [assumption|].
          constructor; [now apply block_ok_more | constructor].
        + now apply sorted_snoc.
        + apply Forall_app; split; [assumption|].
          constructor; [len_lia | constructor].
      - now repeat split. }
    destruct Hall as (Hall & Hsorted & Hle).
    split; [reflexivity|]. split; [assumption|]. split; [assumption|].
    cbn [currentError errors]. split; [|split].
    + split; [split; [|split; [|split]] | split; [|split]]; simpl.
      * len_lia.
      * replace (length pre + 1 - 1) with (length pre) by len_lia.
        rewrite map_app, nth_error_app2; rewrite length_map; [|len_lia].
        now rewrite Nat.sub_diag.
      * exact Hs.
      * reflexivity.
      * rewrite length_app. simpl. len_lia.
      * reflexivity.
      * constructor.
    + simpl. rewrite length_app. simpl. len_lia.
    + eapply Forall_impl; [|exact Hle]. intros e He. unfold apart. simpl. len_lia.
  - (* a continuation line *)
    rewrite Hc in Hcur. destruct Hcur as ([Hh (Hb & Hctx & Hks)] & Hlen & Hap).
    split; [reflexivity|]. split; [assumption|]. split; [assumption|].
    cbn [currentError errors]. split; [|split].
    + split; [now apply (header_ok_more [l] (e := cur))|].
      split; [|split]; simpl.
      * rewrite !length_app. simpl. len_lia.
      * rewrite length_app, skipn_app, firstn_app, length_skipn. simpl.
        replace (length (context cur) + 1 - (length pre - line cur)) with 1
          by len_lia.
        replace (line cur - length pre) with 0 by len_lia. simpl.
        rewrite firstn_all2 by (rewrite length_skipn; len_lia).
        rewrite map_app. simpl. f_equal.
        rewrite Hctx at 1. f_equal.
        apply firstn_all2. rewrite length_skipn. len_lia.
      * apply Forall_app; split; [assumption|].
        constructor; [now split | constructor].
    + simpl. rewrite !length_app. simpl. len_lia.
    + exact Hap.
  - (* the end of the block *)
    rewrite Hc in Hcur. destruct Hcur as (Hok & Hlen & Hap).
    split; [reflexivity|]. cbn [currentError errors].
    split; [|split; [|exact I]].
    + apply Forall_app; split; [assumption|].
      constructor; [now apply block_ok_more | constructor].
    + now apply sorted_snoc.
  - (* outside a block *)
    split; [assumption|]. split; [assumption|]. split; [assumption|].
    now rewrite Hc.
Qed.

Lemma scan_inv_scan (rest pre : list js_string) (st : scan_state) :
  scan_inv pre st -> scan_inv (pre ++ rest) (scan (length pre) rest st).
Proof.
  revert pre st; induction rest as [|l rest IH]; intros pre st H; simpl.
  - now rewrite app_nil_r.
  - replace (pre ++ l :: rest) with ((pre ++ [l]) ++ rest)
      by now rewrite <- app_assoc.
    replace (S (length pre)) with (length (pre ++ [l]))
      by (rewrite length_app; simpl; len_lia).
    apply IH, scan_inv_step, H.
Qed.

Lemma scan_inv_detect (output : js_string) :
  scan_inv (split NL output) (scan 0 (split NL output) init_state).
Proof.
  apply (scan_inv_scan (split NL output) scan_inv_init).
Qed.

Lemma scan_inv_final (lines : list js_string) (st : scan_state) :
  scan_inv lines st ->
  Forall (block_ok lines) (push_current st) /\
  StronglySorted apart (push_current st).
Proof.
  intros (_ & Herr & Hsort & Hcur). unfold push_current.
  destruct (currentError st) as [cur|]; [|now split].
  destruct Hcur as (Hok & _ & Hap). split.
  - apply Forall_app; split; [assumption|].
    constructor; [assumption | constructor].
  - now apply sorted_snoc.
Qed.

(** ** More on trimming and splitting *)

Lemma trimStart_incl (c : code_unit) (s : js_string) :
  In c (trimStart s) -> In c s.
Proof.
  induction s as [|x s IH]; simpl; [easy|].
  destruct (is_space x); [right; now apply IH | easy].
Qed.

Lemma trim_incl (c : code_unit) (s : js_string) : In c (trim s) -> In c s.
Proof.
  unfold trim, trimEnd. intros H.
  apply in_rev, trimStart_incl in H. apply in_rev in H.
  now apply trimStart_incl.
Qed.

Lemma trimStart_idem (s : js_string) : trimStart (trimStart s) = trimStart s.
Proof.
  induction s as [|x s IH]; simpl; [reflexivity|].
  destruct (is_space x) eqn:E; [exact IH|]. simpl. now rewrite E.
Qed.

Lemma trim_idem (s : js_string) : trim (trim s) = trim s.
Proof.
  assert (Hs : trimStart (trim s) = trim s).
  { destruct (trim_head s) as [E | (c & t & E & Hc)]; rewrite E; simpl.
    - reflexivity.
    - now rewrite Hc. }
  unfold trim at 1. rewrite Hs.
  unfold trim, trimEnd. now rewrite rev_involutive, trimStart_idem.
Qed.

Lemma split_not_nil (sep : code_unit) (s : js_string) : split sep s <> [].
Proof.
  destruct s as [|c s]; simpl; [discriminate|].
  destruct (N.eqb c sep); [discriminate|].
  destruct (split sep s); discriminate.
Qed.

Lemma split_no_sep (sep : code_unit) (s : js_string) :
  Forall (fun piece => ~ In sep piece) (split sep s).
Proof.
  induction s as [|c s IH]; simpl.
  - constructor; [easy | constructor].
  - destruct (N.eqb_spec c sep) as [E|E].
    + constructor; [easy | exact IH].
    + destruct (split sep s) as [|piece pieces].
      * constructor; [|constructor]. simpl. intros [H|[]]. now apply E.
      * inversion IH; subst. constructor; [|assumption].
        simpl. intros [H|H]; [now apply E | contradiction].
Qed.

(** [join] undoes [split]. *)
Lemma join_split (sep : code_unit) (s : js_string) :
  join [sep] (split sep s) = s.
Proof.
  induction s as [|c s IH]; simpl; [reflexivity|].
  destruct (N.eqb_spec c sep) as [->|E].
  - pose proof (split_not_nil sep s) as Hn.
    destruct (split sep s) as [|p ps]; [contradiction|].
    simpl in *. now rewrite IH.
  - pose proof (split_not_nil sep s) as Hn.
    destruct (split sep s) as [|p ps]; [contradiction|].
    destruct ps; simpl in *; now rewrite <- IH.
Qed.

Lemma split_app (sep : code_unit) (a b : js_string) :
  split sep (a ++ sep :: b) = split sep a ++ split sep b.
Proof.
  induction a as [|c a IH]; simpl.
  - now rewrite N.eqb_refl.
  - destruct (N.eqb c sep); [now rewrite IH|].
    rewrite IH. pose proof (split_not_nil sep a) as Hn.
    destruct (split sep a); [contradiction | reflexivity].
Qed.

Lemma trimmed_line_clean (l : js_string) :
  ~ In NL l -> trim l <> [] -> clean (trim l).
Proof.
  intros Hn He. repeat split; [assumption | apply trim_idem |].
  intros H. now apply Hn, trim_incl.
Qed.

Lemma headers_length (lines : list js_string) (k : nat) :
  length (headers k lines) =
  length (filter (fun l => isErrorLine (trim l)) lines).
Proof.
  revert k; induction lines as [|l lines IH]; intros k; simpl; [reflexivity|].
  destruct (isErrorLine (trim l)); simpl; now rewrite IH.
Qed.

Lemma detect_headers (output : js_string) :
  map header_of (_detectErrors output) = headers 1 (split NL output).
Proof.
  unfold _detectErrors. now rewrite scan_headers.
Qed.

Lemma error_count_aux (output : js_string) :
  length (_detectErrors output) =
  length (filter (fun l => isErrorLine (trim l)) (split NL output)).
Proof.
  rewrite <- headers_length with (k := 1), <- detect_headers.
  now rewrite length_map.
Qed.

(** ** Further properties of the detection *)

(** X1: there are as many errors as start lines in the output. *)
Theorem error_count (output : js_string) :
  length (_detectErrors output) =
  length (filter (fun l => isErrorLine (trim l)) (split NL output)).
Proof.
  apply error_count_aux.
Qed.

(** X2: an output without a start line, from a run that did not time out,
    is a success: no error, and the summary is the success message with
    the output, cut to 200 code units. *)
Theorem no_start_line_success (number : Type) (text : js_string)
        (t : number) (lang : js_string) :
  Forall (fun l => isErrorLine (trim l) = false) (split NL text) ->
  let r := _parseResult (mkApiResult (Some text) (Some t) lang) in
  res_errors r = [] /\ success r = true /\ hasErrors r = false /\
  summary r = _generateSummary text [] false /\
  startsWith (summary r) (lit "Script executed successfully.") = true.
Proof.
  intros H.
  assert (E : _detectErrors text = []).
  { apply length_zero_iff_nil. rewrite error_count_aux.
    induction H as [|l ls Hl _ IH]; simpl; [reflexivity|]. now rewrite Hl. }
  unfold _parseResult; simpl.
  destruct text as [|c text]; rewrite E; repeat split; reflexivity.
Qed.

Lemma no_start_line_success_witness :
  let r := _parseResult (mkApiResult (Some (lit "3" ++ NL :: lit "Line 4"))
                                     (Some 1) (lit "ahk2")) in
  res_errors r = [] /\ success r = true /\ hasErrors r = false /\
  summary r = _generateSummary (lit "3" ++ NL :: lit "Line 4") [] false /\
  startsWith (summary r) (lit "Script executed successfully.") = true.
Proof.
  apply (@no_start_line_success nat (lit "3" ++ NL :: lit "Line 4") 1
                                (lit "ahk2")).
  repeat constructor.
Defined.

Lemma detect_blocks (output : js_string) :
  Forall (block_ok (split NL output)) (_detectErrors output) /\
  StronglySorted apart (_detectErrors output).
Proof.
  apply scan_inv_final, scan_inv_detect.
Qed.

(** X3: every detected error sits on a line of the output: its message is
    that line trimmed, the line is a start line, and its type is the
    classification of the message alone. *)
Theorem errors_have_headers (output : js_string) :
  Forall (header_ok (split NL output)) (_detectErrors output).
Proof.
  eapply Forall_impl; [|apply (proj1 (detect_blocks output))].
  intros e [H _]. exact H.
Qed.

(** X4: the context of every detected error is made of the output lines
    right after its header, in order and trimmed, with no gap; each of them
    matches a continuation pattern and none is a start line. *)
Theorem contexts_follow_headers (output : js_string) :
  Forall (context_ok (split NL output)) (_detectErrors output).
Proof.
  eapply Forall_impl; [|apply (proj1 (detect_blocks output))].
  intros e [_ H]. exact H.
Qed.

(** X5: the blocks do not overlap: each error's header and context end
    before the header of every later error, so no line of the output is
    used twice. *)
Theorem blocks_apart (output : js_string) :
  StronglySorted apart (_detectErrors output).
Proof.
  apply detect_blocks.
Qed.

(** X6: at every point of the loop [inErrorBlock] is true exactly when
    [currentError] is set, and the open block reaches to the line just
    read. *)
Theorem flag_follows_current (lines : list js_string) :
  let st := scan 0 lines init_state in
  inErrorBlock st =
    match currentError st with Some _ => true | None => false end /\
  match currentError st with
  | Some cur => line cur + length (context cur) = length lines
  | None => True
  end.
Proof.
  destruct (scan_inv_scan lines scan_inv_init) as (Hco & _ & _ & Hcur).
  simpl in *. split; [exact Hco|].
  destruct (currentError (scan 0 lines init_state)); [|exact I].
  now destruct Hcur as (_ & H & _).
Qed.

(** X7: the message and every context line of a detected error are not
    empty, have no white space at either end and hold no line break. *)
Theorem error_texts_clean (output : js_string) :
  Forall (fun e => clean (message e) /\ Forall clean (context e))
         (_detectErrors output).
Proof.
  assert (Hclean : forall l, In l (split NL output) -> trim l <> [] ->
                             clean (trim l)).
  { intros l Hl. apply trimmed_line_clean.
    exact (proj1 (Forall_forall _ _) (split_no_sep NL output) l Hl). }
  eapply Forall_impl; [|apply (proj1 (detect_blocks output))].
  intros e [(_ & Hn & Hs & _) (_ & Hc & Hk)]. split.
  - apply nth_error_In, in_map_iff in Hn. destruct Hn as (l & El & Hl).
    rewrite <- El in *. apply Hclean; [assumption|].
    intros E. rewrite E in Hs. discriminate.
  - rewrite Hc in Hk |- *. apply Forall_forall. intros c Hin.
    pose proof (proj1 (Forall_forall _ _) Hk c Hin) as [Hcont _].
    apply in_map_iff in Hin. destruct Hin as (l & El & Hl).
    rewrite <- El in *. apply Hclean.
    + rewrite <- (firstn_skipn (line e) (split NL output)).
      apply in_or_app; right.
      rewrite <- (firstn_skipn (length (context e))
                               (skipn (line e) (split NL output))).
      apply in_or_app; now left.
    + intros E. rewrite E in Hcont. discriminate.
Qed.

(** ** Detection on an output made of two parts *)

Lemma push_current_with_done (done : list AHKError) (st : scan_state) :
  push_current (with_done done st) = done ++ push_current st.
Proof.
  unfold push_current, with_done; simpl.
  destruct (currentError st); [now rewrite app_assoc | reflexivity].
Qed.

Lemma push_current_shift (k : nat) (st : scan_state) :
  push_current (shift_state k st) = map (shift_line k) (push_current st).
Proof.
  unfold push_current, shift_state; simpl.
  destruct (currentError st); simpl; [now rewrite map_app | reflexivity].
Qed.

Lemma scan_line_with_done (done : list AHKError) (i : nat) (l : js_string)
      (st : scan_state) :
  scan_line i l (with_done done st) = with_done done (scan_line i l st).
Proof.
  unfold scan_line. destruct (isErrorLine (trim l)).
  - now rewrite push_current_with_done.
  - destruct st as [errs [cur|] [|]]; unfold with_done; simpl;
      try reflexivity.
    destruct (isContinuation (trim l)); [reflexivity|].
    destruct (isBlockEnd (trim l)); [|reflexivity].
    simpl. now rewrite app_assoc.
Qed.

Lemma scan_with_done (done : list AHKError) (lines : list js_string) (i : nat)
      (st : scan_state) :
  scan i lines (with_done done st) = with_done done (scan i lines st).
Proof.
  revert i st; induction lines as [|l lines IH]; intros i st; simpl.
  - reflexivity.
  - now rewrite scan_line_with_done, IH.
Qed.

Lemma scan_line_shift (k i : nat) (l : js_string) (st : scan_state) :
  scan_line (i + k) l (shift_state k st) = shift_state k (scan_line i l st).
Proof.
  unfold scan_line. destruct (isErrorLine (trim l)).
  - rewrite push_current_shift. unfold shift_state, shift_line; simpl.
    do 3 f_equal. lia.
  - destruct st as [errs [cur|] [|]]; unfold shift_state; simpl;
      try reflexivity.
    destruct (isContinuation (trim l)); [reflexivity|].
    destruct (isBlockEnd (trim l)); [|reflexivity].
    simpl. now rewrite map_app.
Qed.

Lemma scan_shift (k : nat) (lines : list js_string) (i : nat)
      (st : scan_state) :
  scan (i + k) lines (shift_state k st) = shift_state k (scan i lines st).
Proof.
  revert i st; induction lines as [|l lines IH]; intros i st; simpl.
  - reflexivity.
  - rewrite scan_line_shift. apply (IH (S i)).
Qed.

(** From loop variables with no open block, the rest of the scan is the
    scan of the rest alone, moved down and put after what was found. *)
Lemma scan_from_closed (done : list AHKError) (k : nat)
      (lines : list js_string) :
  push_current (scan k lines (mkState done None false)) =
  done ++ map (shift_line k) (push_current (scan 0 lines init_state)).
Proof.
  replace (mkState done None false)
    with (with_done done (shift_state k init_state))
    by (unfold with_done; simpl; now rewrite app_nil_r).
  rewrite scan_with_done, push_current_with_done.
  change k with (0 + k) at 1.
  now rewrite scan_shift, push_current_shift.
Qed.

Lemma headers_app (a b : list js_string) (k : nat) :
  headers k (a ++ b) = headers k a ++ headers (k + length a) b.
Proof.
  revert k; induction a as [|l a IH]; intros k; simpl.
  - now rewrite Nat.add_0_r.
  - rewrite IH. replace (S k + length a) with (k + S (length a)) by lia.
    now destruct (isErrorLine (trim l)).
Qed.

(** X8: detection starts afresh at a start line: when the second part of
    an output begins with a start line, the errors of the whole are those
    of the first part followed by those of the second part, moved down by
    the number of lines of the first. *)
Theorem detect_restarts_at_start_line (a b l : js_string)
        (rest : list js_string) :
  split NL b = l :: rest ->
  isErrorLine (trim l) = true ->
  _detectErrors (a ++ NL :: b) =
  _detectErrors a ++
  map (shift_line (length (split NL a))) (_detectErrors b).
Proof.
  intros Hb Hl. unfold _detectErrors.
  rewrite split_app, scan_app, Hb. simpl.
  set (n := length (split NL a)). set (st := scan 0 (split NL a) init_state).
  unfold scan_line at 1 2. rewrite Hl.
  change (push_current init_state) with (@nil AHKError).
  replace (mkState (push_current st)
             (Some (mkAHKError (n + 1) (trim l) [] (_classifyError (trim l))))
             true)
    with (with_done (push_current st)
            (shift_state n
               (mkState []
                  (Some (mkAHKError (0 + 1) (trim l) []
                                    (_classifyError (trim l))))
                  true))).
  - rewrite scan_with_done, push_current_with_done.
    change (S n) with (1 + n).
    now rewrite scan_shift, push_current_shift.
  - unfold with_done, shift_state, shift_line; simpl.
    rewrite app_nil_r. do 3 f_equal. lia.
Qed.

Lemma detect_restarts_at_start_line_witness :
  _detectErrors (lit "Error: a" ++ NL :: lit "--> 1" ++ NL :: lit "Error: b") =
  _detectErrors (lit "Error: a" ++ NL :: lit "--> 1") ++
  map (shift_line (length (split NL (lit "Error: a" ++ NL :: lit "--> 1"))))
      (_detectErrors (lit "Error: b")).
Proof.
  apply (detect_restarts_at_start_line
           (lit "Error: a" ++ NL :: lit "--> 1") (lit "Error: b")
           (l := lit "Error: b") (rest := []));
    reflexivity.
Defined.

(** X9: a blank line separates: when the first part of an output ends
    with a line that is empty once trimmed, the errors of the whole are
    those of the first part followed by those of the second part, moved
    down by the number of lines of the first. *)
Theorem detect_restarts_after_blank (a b : js_string) :
  trim (last (split NL a) []) = [] ->
  _detectErrors (a ++ NL :: b) =
  _detectErrors a ++
  map (shift_line (length (split NL a))) (_detectErrors b).
Proof.
  intros Hblank. unfold _detectErrors. rewrite split_app, scan_app. simpl.
  destruct (exists_last (split_not_nil NL a)) as (pre & l & E).
  rewrite E in *. rewrite last_last in Hblank.
  rewrite scan_app. simpl.
  pose proof (scan_inv_scan pre scan_inv_init) as (Hco & _). simpl in Hco.
  set (st := scan 0 pre init_state) in *.
  assert (Hclosed : exists done,
             scan_line (length pre) l st = mkState done None false).
  { destruct (scan_line_live (0 + length pre) l Hco)
      as [(Hs & _) | [(_ & cur & _ & Hk & _) | [(_ & cur & _ & _ & Es)
                                                | (_ & Hc & Es)]]];
      try (rewrite Hblank in *; discriminate).
    - eexists. exact Es.
    - exists (errors st). simpl in Es. rewrite Es.
      unfold coherent in Hco. rewrite Hc in Hco.
      destruct st; simpl in *. now subst. }
  destruct Hclosed as [done Hd]. simpl. rewrite Hd.
  rewrite scan_from_closed. reflexivity.
Qed.

Lemma detect_restarts_after_blank_witness :
  _detectErrors ((lit "Error: a" ++ [NL]) ++ NL :: lit "  Line 2") =
  _detectErrors (lit "Error: a" ++ [NL]) ++
  map (shift_line (length (split NL (lit "Error: a" ++ [NL]))))
      (_detectErrors (lit "  Line 2")).
Proof.
  apply (detect_restarts_after_blank (lit "Error: a" ++ [NL]) (lit "  Line 2")).
  reflexivity.
Defined.

(** X10: more output, added after a line break, leaves the lines and
    messages of the errors found so far as they are and only adds the start
    lines of the new part after them. *)
Theorem headers_stable_under_append (a b : js_string) :
  map header_of (_detectErrors (a ++ NL :: b)) =
  map header_of (_detectErrors a) ++
  headers (1 + length (split NL a)) (split NL b).
Proof.
  rewrite !detect_headers, split_app. apply headers_app.
Qed.

(** ** Further properties of the classification *)

Lemma canonicalize_idem (c : code_unit) :
  canonicalize (canonicalize c) = canonicalize c.
Proof.
  unfold canonicalize.
  destruct ((97 <=? c) && (c <=? 122))%N eqn:E; [|now rewrite E].
  apply andb_true_iff in E. destruct E as [E1 E2].
  apply N.leb_le in E1, E2.
  assert (E : (97 <=? c - 32)%N = false) by (apply N.leb_gt; lia).
  now rewrite E.
Qed.

Lemma prefix_ci_map (f : code_unit -> code_unit) (w s : js_string) :
  (forall c, canonicalize (f c) = canonicalize c) ->
  prefix_ci w (map f s) = prefix_ci w s.
Proof.
  intros Hf. revert s; induction w as [|p w IH]; intros [|c s]; simpl;
    try reflexivity.
  now rewrite Hf, IH.
Qed.

Lemma includes_ci_map (f : code_unit -> code_unit) (w s : js_string) :
  (forall c, canonicalize (f c) = canonicalize c) ->
  includes_ci w (map f s) = includes_ci w s.
Proof.
  intros Hf. induction s as [|c s IH].
  - reflexivity.
  - change (includes_ci w (map f (c :: s)))
      with (prefix_ci w (map f (c :: s)) || includes_ci w (map f s)).
    now rewrite IH, (@prefix_ci_map f w (c :: s) Hf).
Qed.

Lemma prefix_ci_canon (w w' s : js_string) :
  map canonicalize w = map canonicalize w' ->
  prefix_ci w s = prefix_ci w' s.
Proof.
  revert w' s; induction w as [|p w IH]; intros [|p' w'] s E;
    try discriminate; [reflexivity|].
  simpl in E. injection E as Ep Ew.
  destruct s as [|c s]; simpl; [reflexivity|].
  now rewrite Ep, (IH w' s Ew).
Qed.

Lemma prefix_includes_ci (w s : js_string) :
  prefix_ci w s = true -> includes_ci w s = true.
Proof.
  intros H. destruct s; simpl; now rewrite H.
Qed.

Lemma matches_here_seq_str (w : string) (r : regex) (s : js_string) :
  matches_here true (Seq (str w) r) s = true -> prefix_ci (lit w) s = true.
Proof.
  unfold matches_here, str. simpl. rewrite residuals_literal.
  now destruct (prefix_ci (lit w) s).
Qed.

(** A message that begins, whatever the case, with [w ++ more] holds the
    keyword [k] when [k] is [w] up to case. *)
Lemma keyword_of_prefix (k w more m : js_string) :
  map canonicalize k = map canonicalize w ->
  prefix_ci (w ++ more) m = true -> includes_ci k m = true.
Proof.
  intros E H. apply prefix_includes_ci.
  rewrite (@prefix_ci_canon k w m E). now apply prefix_ci_app with (w' := more).
Qed.

Lemma keyword_inside_prefix (a w b m : js_string) :
  prefix_ci (a ++ w ++ b) m = true -> includes_ci w m = true.
Proof.
  revert m; induction a as [|p a IH]; intros m H.
  - apply prefix_includes_ci. now apply prefix_ci_app with (w' := b).
  - destruct m as [|c m]; [discriminate|].
    simpl in H. apply andb_true_iff in H. destruct H as [_ H].
    simpl. rewrite (IH m H). apply orb_true_r.
Qed.

(** X11: the classification does not depend on the case of the ASCII
    letters of the message. *)
Theorem classify_ignores_case (f : code_unit -> code_unit) (m : js_string) :
  (forall c, canonicalize (f c) = canonicalize c) ->
  _classifyError (map f m) = _classifyError m.
Proof.
  intros Hf. rewrite !classify_cascade. unfold classify_contains.
  cbn [existsb]. now rewrite !(fun w => @includes_ci_map f w m Hf).
Qed.

Lemma classify_ignores_case_witness :
  _classifyError (map canonicalize (lit "Error: Type mismatch")) =
  _classifyError (lit "Error: Type mismatch").
Proof.
  apply (@classify_ignores_case canonicalize (lit "Error: Type mismatch")).
  exact canonicalize_idem.
Defined.

(** X12: how the lines that seven of the [errorPatterns] recognise are
    classified: [Invalid hotkey], [Missing comma|closing|opening] and
    [Unexpected end of file] always give [syntax];
    [Call to nonexistent function] gives [syntax] or [reference];
    [wine:], [err:] and [fixme:] never give [runtime]. *)
Theorem known_headers_classified (m : js_string) :
  incl [re_start_i (str "Invalid hotkey");
        re_start_i (cat [str "Missing ";
                         alts [str "comma"; str "closing"; str "opening"]]);
        re_start_i (str "Unexpected end of file");
        re_start_i (str "Call to nonexistent function");
        re_start_i (str "wine:"); re_start_i (str "err:");
        re_start_i (str "fixme:")]
       errorPatterns /\
  (test (re_start_i (str "Invalid hotkey")) m = true \/
   test (re_start_i (cat [str "Missing ";
                          alts [str "comma"; str "closing"; str "opening"]]))
        m = true \/
   test (re_start_i (str "Unexpected end of file")) m = true ->
   _classifyError m = syntax) /\
  (test (re_start_i (str "Call to nonexistent function")) m = true ->
   _classifyError m = syntax \/ _classifyError m = reference) /\
  (test (re_start_i (str "wine:")) m = true \/
   test (re_start_i (str "err:")) m = true \/
   test (re_start_i (str "fixme:")) m = true ->
   _classifyError m <> runtime).
Proof.
  split.
  { intros p Hp. simpl in Hp.
    repeat (destruct Hp as [<- | Hp];
            [unfold errorPatterns;
             repeat (first [left; reflexivity | right]) |]).
    contradiction. }
  rewrite classify_cascade. unfold classify_contains, test, re_start_i.
  cbn [existsb anchored body ignoreCase]. repeat split.
  - intros [H | [H | H]].
    + rewrite matches_here_str in H.
      apply (@keyword_of_prefix (lit "invalid") (lit "Invalid") (lit " hotkey") m)
        in H; [|reflexivity].
      rewrite H, !orb_true_r. reflexivity.
    + apply matches_here_seq_str in H.
      apply (@keyword_of_prefix (lit "missing") (lit "Missing") (lit " ") m)
        in H; [|reflexivity].
      rewrite H, !orb_true_r. reflexivity.
    + rewrite matches_here_str in H.
      apply (@keyword_of_prefix (lit "unexpected") (lit "Unexpected")
                                (lit " end of file") m)
        in H; [|reflexivity].
      rewrite H, !orb_true_r. reflexivity.
  - intros H. rewrite matches_here_str in H.
    apply (@keyword_inside_prefix (lit "Call to ") (lit "nonexistent")
                                  (lit " function") m) in H.
    rewrite H, !orb_true_r.
    destruct (_ || _); [now left | now right].
  - intros H.
    assert (Hw : includes_ci (lit "wine:") m || (includes_ci (lit "err:") m
                 || (includes_ci (lit "fixme:") m || false)) = true).
    { destruct H as [H | [H | H]]; rewrite matches_here_str in H;
        apply prefix_includes_ci in H; rewrite H, ?orb_true_r; reflexivity. }
    rewrite Hw.
    repeat match goal with
           | |- context [if ?b then _ else _] => destruct b
           end; discriminate.
Qed.

Lemma known_headers_classified_witness :
  _classifyError (lit "Missing comma") = syntax /\
  (_classifyError (lit "Call to nonexistent function.") = syntax \/
   _classifyError (lit "Call to nonexistent function.") = reference) /\
  _classifyError (lit "fixme:ntdll stub") <> runtime.
Proof.
  pose proof (known_headers_classified (lit "Missing comma"))
    as (_ & H1 & _ & _).
  pose proof (known_headers_classified (lit "Call to nonexistent function."))
    as (_ & _ & H2 & _).
  pose proof (known_headers_classified (lit "fixme:ntdll stub"))
    as (_ & _ & _ & H3).
  split; [|split].
  - apply H1. right; left. reflexivity.
  - apply H2. reflexivity.
  - apply H3. right; right. reflexivity.
Defined.

(** ** Further properties of the summary *)

Lemma summary_kind_aux (output : js_string) (errs : list AHKError)
      (timedOut : bool) :
  startsWith (_generateSummary output errs timedOut)
             (lit "Script executed successfully.") =
    negb timedOut && (length errs =? 0) /\
  startsWith (_generateSummary output errs timedOut)
             (lit "Script execution timed out") = timedOut /\
  startsWith (_generateSummary output errs timedOut)
             (lit "Script failed with ") =
    negb timedOut && negb (length errs =? 0).
Proof.
  destruct timedOut; [repeat split; reflexivity|].
  destruct errs as [|e errs]; repeat split; reflexivity.
Qed.

(** X13: the first words of the summary tell the three outcomes apart:
    it begins with [Script executed successfully.] exactly when there is
    neither timeout nor error, with [Script execution timed out] exactly on
    a timeout, and with [Script failed with ] exactly when there are errors
    and no timeout. *)
Theorem summary_kind (output : js_string) (errs : list AHKError)
        (timedOut : bool) :
  startsWith (_generateSummary output errs timedOut)
             (lit "Script executed successfully.") =
    negb timedOut && (length errs =? 0) /\
  startsWith (_generateSummary output errs timedOut)
             (lit "Script execution timed out") = timedOut /\
  startsWith (_generateSummary output errs timedOut)
             (lit "Script failed with ") =
    negb timedOut && negb (length errs =? 0).
Proof.
  apply summary_kind_aux.
Qed.

(** X14: without timeout and without errors the summary is at most 241
    code units long, however long the output is. *)
Theorem success_summary_bounded (output : js_string) :
  length (_generateSummary output [] false) <= 241.
Proof.
  unfold _generateSummary. cbn [length Nat.eqb].
  rewrite length_app.
  change (length (lit "Script executed successfully.")) with 29.
  cbn [length]. rewrite length_app.
  change (length (lit "Output: ")) with 8.
  destruct (200 <? length output) eqn:E.
  - destruct (firstn 200 output ++ lit "...") eqn:F.
    + simpl. lia.
    + rewrite <- F, length_app, length_firstn.
      change (length (lit "...")) with 3. len_lia.
  - apply Nat.ltb_ge in E. destruct output; simpl in *; len_lia.
Qed.

Lemma render_clipped (e : AHKError) :
  render_error (clip_context e) = render_error e.
Proof.
  unfold render_error, clip_context; cbn [context type message line].
  rewrite firstn_firstn, Nat.min_id.
  now destruct (context e).
Qed.

(** X15: the summary shows at most three context lines of each error:
    it is the same when every context is cut to its first three lines. *)
Theorem summary_shows_three_context_lines (output : js_string)
        (errs : list AHKError) (timedOut : bool) :
  _generateSummary output (map clip_context errs) timedOut =
  _generateSummary output errs timedOut.
Proof.
  unfold _generateSummary. rewrite length_map, map_map.
  destruct timedOut; [reflexivity|].
  destruct (length errs =? 0); [reflexivity|].
  do 6 f_equal. apply map_ext. exact render_clipped.
Qed.

(** X21: in the object [_parseResult] returns the summary agrees with the
    flags: it begins with [Script executed successfully.] exactly when
    [success] is true, with [Script execution timed out] exactly when
    [timedOut] is true, and with [Script failed with ] exactly when
    [hasErrors] is true and [timedOut] is not. *)
Theorem summary_agrees_with_flags (number : Type) (result : ApiResult number) :
  let r := _parseResult result in
  startsWith (summary r) (lit "Script executed successfully.") = success r /\
  startsWith (summary r) (lit "Script execution timed out") = timedOut r /\
  startsWith (summary r) (lit "Script failed with ") =
    hasErrors r && negb (timedOut r).
Proof.
  unfold _parseResult; cbn [summary success timedOut hasErrors].
  match goal with
  | |- context [_generateSummary ?text ?errs ?t] =>
      destruct (summary_kind_aux text errs t) as (H1 & H2 & H3);
      rewrite H1, H2, H3; destruct errs, t; repeat split; reflexivity
  end.
Qed.

(** ** [_parseResult] and [validate] at the edges *)

(** X16: a response without [stdout], or with an empty one, that did not
    time out is a success with no output: no error, and the summary shows
    the placeholder. *)
Theorem missing_stdout_is_success (number : Type) (t : number)
        (lang : js_string) :
  _parseResult (mkApiResult None (Some t) lang) =
    mkExecutionResult true [] (Some t) false lang [] false
      (lit "Script executed successfully." ++ NL ::
       lit "Output: (no output)") /\
  _parseResult (mkApiResult (Some []) (Some t) lang) =
  _parseResult (mkApiResult None (Some t) lang).
Proof.
  split; reflexivity.
Qed.

(** X17: [validate] answers [valid] with the fixed message and no error
    exactly when the run was a success; otherwise its message is the
    timeout notice, on a timeout, or begins with [Script failed with ] and
    comes with the errors. *)
Theorem validate_outcomes (number : Type) (result : ApiResult number) :
  let v := validate (_parseResult result) in
  (valid v = true ->
   val_errors v = [] /\
   val_message v = lit "Code is valid and runs without errors") /\
  (valid v = false ->
   (time result = None /\ val_message v = timeout_summary) \/
   (val_errors v <> [] /\
    startsWith (val_message v) (lit "Script failed with ") = true)).
Proof.
  unfold validate, _parseResult; simpl.
  destruct (time result) as [t|]; simpl.
  - match goal with
    | |- context [_detectErrors ?text] =>
        destruct (_detectErrors text) as [|e errs]
    end; simpl.
    + split; [intros _; split; reflexivity | discriminate].
    + split; [discriminate|]. intros _. right. split; [discriminate|].
      reflexivity.
  - rewrite andb_false_r. split; [discriminate|]. intros _. now left.
Qed.

Lemma validate_outcomes_witness :
  let v := validate (_parseResult (mkApiResult (Some (lit "hi")) (Some 1)
                                               (lit "ahk"))) in
  val_errors v = [] /\
  val_message v = lit "Code is valid and runs without errors".
Proof.
  apply (proj1 (validate_outcomes
                  (mkApiResult (Some (lit "hi")) (Some 1) (lit "ahk")))).
  reflexivity.
Defined.

(** ** The constructor, the request address and the choice of language *)

Lemma startsWith_spec (s p : js_string) :
  startsWith s p = true <-> exists q, s = p ++ q.
Proof.
  revert s; induction p as [|x p IH]; intros s; simpl.
  - split; [now exists s | reflexivity].
  - destruct s as [|c s].
    + split; [discriminate | intros [q H]; discriminate].
    + rewrite andb_true_iff, N.eqb_eq, IH. split.
      * intros [-> [q ->]]. now exists q.
      * intros [q H]. injection H as -> ->. split; [reflexivity | now exists q].
Qed.

Lemma endsWith_spec (s suffix : js_string) :
  endsWith s suffix = true <-> exists p, s = p ++ suffix.
Proof.
  unfold endsWith. rewrite startsWith_spec. split.
  - intros [q H]. exists (rev q).
    rewrite <- (rev_involutive s), H, rev_app_distr, rev_involutive.
    reflexivity.
  - intros [p ->]. exists (rev p). apply rev_app_distr.
Qed.

Lemma includes_spec (s w : js_string) :
  includes s w = true <-> exists p q, s = p ++ w ++ q.
Proof.
  induction s as [|c s IH]; simpl; rewrite orb_true_iff, startsWith_spec.
  - split.
    + intros [[q H] | H]; [|discriminate]. now exists [], q.
    + intros (p & q & H). left. destruct p; [now exists q | discriminate].
  - rewrite IH. split.
    + intros [[q H] | (p & q & ->)]; [now exists [], q|].
      now exists (c :: p), q.
    + intros (p & q & H). destruct p as [|x p].
      * left. now exists q.
      * right. injection H as -> ->. now exists p, q.
Qed.




Lemma file_language_lang (version : option js_string)
      (filePath code : js_string) :
  file_language version filePath code = lit "ahk" \/
  file_language version filePath code = lit "ahk2".
Proof.
  unfold file_language, version_language.
  destruct version as [[|c v]|]; simpl;
    repeat match goal with
           | |- context [if ?b then _ else _] => destruct b
           end; auto.
Qed.

(** X19: [run_ahk_file] runs a file as AHK v1 or v2, nothing else; a
    version that is given and not empty decides alone, whatever the file
    says; without one the file is run as v2 exactly when its path ends with
    [.ahk2] or its text holds [#Requires AutoHotkey v2]. *)
Theorem file_language_choice (version : option js_string)
        (filePath code : js_string) :
  (file_language version filePath code = lit "ahk" \/
   file_language version filePath code = lit "ahk2") /\
  (forall c v, version = Some (c :: v) ->
     file_language version filePath code =
     if js_string_eqb (c :: v) (lit "v2") then lit "ahk2" else lit "ahk") /\
  (version = None \/ version = Some [] ->
   (file_language version filePath code = lit "ahk2" <->
    (exists p, filePath = p ++ lit ".ahk2") \/
    (exists p q, code = p ++ lit "#Requires AutoHotkey v2" ++ q))).
Proof.
  split; [|split].
  - apply file_language_lang.
  - intros c v ->. reflexivity.
  - intros Hv.
    rewrite <- endsWith_spec, <- includes_spec, <- orb_true_iff.
    destruct Hv as [-> | ->]; simpl;
      destruct (endsWith filePath (lit ".ahk2") ||
                includes code (lit "#Requires AutoHotkey v2"));
      split; (reflexivity || discriminate).
Qed.

Lemma file_language_choice_witness :
  file_language (Some (lit "v1")) (lit "tool.ahk2")
                (lit "#Requires AutoHotkey v2.0") = lit "ahk" /\
  (file_language None (lit "tool.ahk") (lit "#Requires AutoHotkey v2.0")
   = lit "ahk2" <->
   (exists p, lit "tool.ahk" = p ++ lit ".ahk2") \/
   (exists p q, lit "#Requires AutoHotkey v2.0" =
                p ++ lit "#Requires AutoHotkey v2" ++ q)).
Proof.
  split.
  - apply (proj1 (proj2 (file_language_choice
                           (Some (lit "v1")) (lit "tool.ahk2")
                           (lit "#Requires AutoHotkey v2.0")))
                 118%N (lit "1")).
    reflexivity.
  - apply (proj2 (proj2 (file_language_choice
                           None (lit "tool.ahk")
                           (lit "#Requires AutoHotkey v2.0")))).
    now left.
Defined.


(** ** The context of a block is as long as it can be *)

Lemma closed_ok_more (pre more : list js_string) (e : AHKError) :
  closed_ok pre e -> closed_ok (pre ++ more) e.
Proof.
  intros [Hlt Hmax]. split.
  - rewrite length_app. len_lia.
  - intros l. rewrite nth_error_app1 by assumption. apply Hmax.
Qed.

Lemma closed_ok_at (pre : list js_string) (l : js_string) (e : AHKError) :
  line e + length (context e) = length pre ->
  isErrorLine (trim l) = true \/ isContinuation (trim l) = false ->
  closed_ok (pre ++ [l]) e.
Proof.
  intros Hlen Hl. split.
  - rewrite length_app. simpl. len_lia.
  - intros l'. rewrite Hlen, nth_error_app2, Nat.sub_diag by len_lia.
    simpl. now intros [= <-].
Qed.

Lemma scan_closed_step (pre : list js_string) (l : js_string)
      (st : scan_state) :
  scan_inv pre st ->
  Forall (closed_ok pre) (errors st) ->
  Forall (closed_ok (pre ++ [l])) (errors (scan_line (length pre) l st)).
Proof.
  intros (Hco & _ & _ & Hcur) Hcl.
  assert (Hcl' : Forall (closed_ok (pre ++ [l])) (errors st)).
  { eapply Forall_impl; [|exact Hcl]. intros e. apply closed_ok_more. }
  destruct (scan_line_live (length pre) l Hco)
    as [(Hs & E) | [(Hs & cur & Hc & Hk & E) | [(Hs & cur & Hc & Hk & E)
                                                | (Hs & Hc & E)]]];
    rewrite E; clear E; cbn [errors]; try assumption.
  - unfold push_current. destruct (currentError st) as [cur|]; [|assumption].
    destruct Hcur as (_ & Hlen & _).
    apply Forall_app; split; [assumption|].
    constructor; [|constructor]. apply closed_ok_at; [assumption | now left].
  - rewrite Hc in Hcur. destruct Hcur as (_ & Hlen & _).
    apply Forall_app; split; [assumption|].
    constructor; [|constructor]. apply closed_ok_at; [assumption | now right].
Qed.

Lemma scan_closed (rest pre : list js_string) (st : scan_state) :
  scan_inv pre st ->
  Forall (closed_ok pre) (errors st) ->
  Forall (closed_ok (pre ++ rest)) (errors (scan (length pre) rest st)).
Proof.
  revert pre st; induction rest as [|l rest IH]; intros pre st Hinv Hcl; simpl.
  - now rewrite app_nil_r.
  - replace (pre ++ l :: rest) with ((pre ++ [l]) ++ rest)
      by now rewrite <- app_assoc.
    replace (S (length pre)) with (length (pre ++ [l]))
      by (rewrite length_app; simpl; lia).
    apply IH; [now apply scan_inv_step | now apply scan_closed_step].
Qed.

(** X22: the context of every detected error is as long as it can be:
    the output line that follows the block, when there is one, is a start
    line or does not match a continuation pattern. *)
Theorem contexts_maximal (output : js_string) :
  Forall (context_maximal (split NL output)) (_detectErrors output).
Proof.
  unfold _detectErrors.
  pose proof (scan_inv_detect output) as (_ & _ & _ & Hcur).
  pose proof (scan_closed (split NL output) scan_inv_init (Forall_nil _))
    as Hcl.
  simpl in Hcl. unfold push_current.
  set (st := scan 0 (split NL output) init_state) in *.
  assert (Herr : Forall (context_maximal (split NL output)) (errors st)).
  { eapply Forall_impl; [|exact Hcl]. now intros e [_ H]. }
  destruct (currentError st) as [cur|]; [|assumption].
  destruct Hcur as (_ & Hlen & _).
  apply Forall_app; split; [assumption|]. constructor; [|constructor].
  intros l Hl. rewrite Hlen in Hl.
  assert (Hnone : nth_error (split NL output) (length (split NL output)) = None)
    by now apply nth_error_None.
  congruence.
Qed.
